(** * URL shortener backend: shortcode registry and validators

    A shallow embedding of
      - BackendTestSubmission/services/validationService.js
          (validateShortcode, validateUrl, validateValidity)
      - BackendTestSubmission/services/urlService.js
          (generateShortcode, shortcodeExists, storeUrl, getUrl,
           recordClick, getAllUrls, cleanupExpiredUrls)
      - FrontendTestSubmission/src/pages/Statistics.jsx
          (the search history of fetchStatistics, getTopReferrers,
           getLocationDistribution)
      - the URL form page
          (addUrlEntry, removeUrlEntry, updateUrlEntry, handleUrlBlur,
           clearForm)
    together with the properties of these functions.

    Conventions.
      - A JavaScript string is a [string]: a sequence of code units below
        256, so [String.length] is the JS [.length].
      - An argument that may be [undefined]/[null] is an [option].
      - The objects [{ isValid, error, ... }] returned by the validators are
        the two constructors of [validation]: [Valid v] for
        [{ isValid: true, error: null, <payload>: v }] and [Invalid msg] for
        [{ isValid: false, error: msg }].
      - [urlStorage], a JS [Map] from shortcode to entry object, is a
        [gmap string UrlEntry]; the clock reading [new Date()] inside
        [cleanupExpiredUrls] and the successive results of [nanoid(6)]
        inside [generateShortcode] are explicit arguments. *)

From Stdlib Require Import ZArith NArith Ascii String List Bool Lia.
From stdpp Require Import gmap strings list fin_maps sorting.

Local Open Scope string_scope.

(* ===================================================================== *)
(** ** Characters and strings as the JS primitives use them               *)
(* ===================================================================== *)

Module JsString.

Definition code (a : ascii) : N := N_of_ascii a.

Definition between (lo hi : N) (a : ascii) : bool :=
  ((lo <=? code a) && (code a <=? hi))%N.

Definition is_digit : ascii -> bool := between 48 57.
Definition is_upper : ascii -> bool := between 65 90.
Definition is_lower : ascii -> bool := between 97 122.

(** The character class [[a-zA-Z0-9]]. *)
Definition is_alnum (a : ascii) : bool :=
  is_lower a || is_upper a || is_digit a.

(** The character class [[a-zA-Z0-9.-]]. *)
Definition is_host_char (a : ascii) : bool :=
  is_alnum a || Ascii.eqb a "." || Ascii.eqb a "-".

(** WhiteSpace and LineTerminator code units below 256: TAB, LF, VT, FF,
    CR, SPACE and NO-BREAK SPACE.  These are what [trim] strips. *)
Definition is_whitespace (a : ascii) : bool :=
  between 9 13 a || (code a =? 32)%N || (code a =? 160)%N.

Fixpoint all_chars (p : ascii -> bool) (s : string) : bool :=
  match s with
  | EmptyString => true
  | String a s' => p a && all_chars p s'
  end.

Fixpoint any_char (p : ascii -> bool) (s : string) : bool :=
  match s with
  | EmptyString => false
  | String a s' => p a || any_char p s'
  end.

(** [/^[class]+$/.test(s)]: one or more characters, all in the class. *)
Definition test_plus (p : ascii -> bool) (s : string) : bool :=
  match s with
  | EmptyString => false
  | String _ _ => all_chars p s
  end.

(** [s.includes(c)] for a one-character needle. *)
Definition includes_char (c : ascii) (s : string) : bool :=
  any_char (Ascii.eqb c) s.

(** [s.includes('.')] and the like are [includes_char]; [startsWith] and
    [endsWith] for a one-character needle: *)
Definition startsWith_char (c : ascii) (s : string) : bool :=
  match s with
  | EmptyString => false
  | String a _ => Ascii.eqb a c
  end.

Fixpoint endsWith_char (c : ascii) (s : string) : bool :=
  match s with
  | EmptyString => false
  | String a EmptyString => Ascii.eqb a c
  | String _ s' => endsWith_char c s'
  end.

Fixpoint trimStart (s : string) : string :=
  match s with
  | EmptyString => EmptyString
  | String a s' => if is_whitespace a then trimStart s' else s
  end.

(** [trimEnd] drops the trailing run of whitespace: a character is kept
    when it is not whitespace or when something is kept after it. *)
Fixpoint trimEnd (s : string) : string :=
  match s with
  | EmptyString => EmptyString
  | String a s' =>
      match trimEnd s' with
      | EmptyString => if is_whitespace a then EmptyString
                       else String a EmptyString
      | t => String a t
      end
  end.

Definition trim (s : string) : string := trimEnd (trimStart s).

(** [toLowerCase] on code units below 256: A-Z and the Latin-1 capitals
    (U+00C0..U+00DE except the multiplication sign U+00D7) move by 32. *)
Definition lower_char (a : ascii) : ascii :=
  if is_upper a || (between 192 222 a && negb (code a =? 215)%N)
  then ascii_of_N (code a + 32) else a.

Fixpoint toLowerCase (s : string) : string :=
  match s with
  | EmptyString => EmptyString
  | String a s' => String (lower_char a) (toLowerCase s')
  end.

(** [arr.includes(s)] for an array of strings. *)
Definition includes (arr : list string) (s : string) : bool :=
  existsb (String.eqb s) arr.

End JsString.

Import JsString.

(* ===================================================================== *)
(** ** validationService.js                                               *)
(* ===================================================================== *)

Inductive validation (A : Type) : Type :=
| Valid (payload : A)
| Invalid (error : string).
Arguments Valid {A} payload.
Arguments Invalid {A} error.

Definition isValid {A} (r : validation A) : bool :=
  match r with Valid _ => true | Invalid _ => false end.

(** A JS value as [validateValidity] can receive it from a JSON body.
    [JNumber z] is a number with an integral value, [JFraction] any other
    number (a fraction, NaN, an infinity), [JOther] a value that is not a
    number (a string, a boolean, an object). *)
Inductive jsvalue : Type :=
| JUndefined
| JNull
| JNumber (z : Z)
| JFraction
| JOther.

(** The two properties of a parsed [URL] object that [validateUrl] reads. *)
Record URLObject : Type := mkURL { protocol : string; hostname : string }.

Module Validation.

Definition reservedWords : list string :=
  ["api"; "admin"; "www"; "shorturls"; "health"; "stats"].

Definition validateShortcode (shortcode : option string) : validation unit :=
  match shortcode with
  | None | Some EmptyString => Invalid "Shortcode cannot be empty"
  | Some shortcode =>
      if (String.length shortcode <? 4)%nat || (10 <? String.length shortcode)%nat
      then Invalid "Shortcode must be between 4 and 10 characters long"
      else if negb (test_plus is_alnum shortcode)
      then Invalid "Shortcode can only contain alphanumeric characters (a-z, A-Z, 0-9)"
      else if includes reservedWords (toLowerCase shortcode)
      then Invalid "Shortcode uses a reserved word. Please choose a different shortcode."
      else Valid tt
  end.

Definition validateValidity (validity : jsvalue) : validation Z :=
  match validity with
  | JUndefined | JNull => Valid 30%Z
  | JFraction | JOther => Invalid "Validity must be an integer"
  | JNumber validity =>
      if (validity <? 1)%Z || (43200 <? validity)%Z
      then Invalid "Validity must be between 1 and 43200 minutes (30 days)"
      else Valid validity
  end.

Section WithURL.

(** [new URL(s)]: [Some] of the parsed object, or [None] when the
    constructor throws (the [catch] branch of [validateUrl]). *)
Variable URL : string -> option URLObject.

Definition validateUrl (url : option string) : validation string :=
  match url with
  | None | Some EmptyString => Invalid "URL is required"
  | Some url =>
      let trimmedUrl := trim url in
      if includes_char " " trimmedUrl
      then Invalid "URL cannot contain spaces"
      else
        match URL trimmedUrl with
        | Some urlObj =>
            if negb (includes ["http:"; "https:"] (protocol urlObj))
            then Invalid "URL must use http:// or https:// protocol"
            else if String.eqb (hostname urlObj) ""
            then Invalid "URL must have a valid hostname"
            else if negb (test_plus is_host_char (hostname urlObj))
                    || negb (includes_char "." (hostname urlObj))
            then Invalid "URL must have a valid domain name"
            else if startsWith_char "-" (hostname urlObj)
                    || endsWith_char "-" (hostname urlObj)
                    || startsWith_char "." (hostname urlObj)
                    || endsWith_char "." (hostname urlObj)
            then Invalid "URL domain name format is invalid"
            else Valid trimmedUrl
        | None => Invalid "Invalid URL format"
        end
  end.

End WithURL.

End Validation.

Import Validation.

(** *** A concrete stand-in for the platform's URL parser

    [new URL] is the platform's WHATWG parser; every statement about
    [validateUrl] below that quantifies over inputs is proved for an
    arbitrary parser.  To evaluate [validateUrl] on concrete inputs we use
    [URL_plain], which follows the WHATWG rules on the inputs
        http://host, https://host, each optionally followed by
        /..., ?... or #...
    in which [host] is a non-empty run of ASCII letters and dots: there the
    parser yields the scheme followed by a colon as [protocol] and the
    host in lower case as [hostname].  On every other input [URL_plain]
    gives no answer and returns [None]; the platform's parser accepts many
    of those too, so [URL_plain] is only evaluated on inputs of the shape
    above. *)

Definition is_letter_or_dot (a : ascii) : bool :=
  is_lower a || is_upper a || Ascii.eqb a ".".

(** The longest prefix of characters satisfying [p], and what follows. *)
Fixpoint span (p : ascii -> bool) (s : string) : string * string :=
  match s with
  | EmptyString => (EmptyString, EmptyString)
  | String a s' =>
      if p a then let '(pre, post) := span p s' in (String a pre, post)
      else (EmptyString, s)
  end.

Definition strip_prefix (pre s : string) : option string :=
  if String.prefix pre s
  then Some (String.substring (String.length pre)
                              (String.length s - String.length pre) s)
  else None.

Definition URL_plain_host (scheme rest : string) : option URLObject :=
  let '(host, tail) := span is_letter_or_dot rest in
  match host, tail with
  | EmptyString, _ => None
  | _, EmptyString | _, String "/" _ | _, String "?" _ | _, String "#" _ =>
      Some (mkURL (scheme ++ ":") (toLowerCase host))
  | _, _ => None
  end.

Definition URL_plain (s : string) : option URLObject :=
  match strip_prefix "https://" s, strip_prefix "http://" s with
  | Some rest, _ => URL_plain_host "https" rest
  | None, Some rest => URL_plain_host "http" rest
  | None, None => None
  end.

(* ===================================================================== *)
(** ** urlService.js                                                      *)
(* ===================================================================== *)

(** The time value of a JS [Date] (milliseconds since the epoch); [None]
    is the time value NaN of an Invalid Date. *)
Definition timeValue : Type := option Z.

(** [a < b] on two [Date]s: both are converted to their time values, and
    a comparison with NaN is false. *)
Definition date_lt (a b : timeValue) : bool :=
  match a, b with
  | Some x, Some y => (x <? y)%Z
  | _, _ => false
  end.

Record ClickEvent : Type := mkClick {
  timestamp : string;
  referrer : string;
  location : string;
  userAgent : string
}.

(** An entry object.  [createdAt] and [expiresAt] are kept as the time
    value that [new Date(urlEntry.expiresAt)] computes from the field. *)
Record UrlEntry : Type := mkEntry {
  shortcode : string;
  originalUrl : string;
  createdAt : timeValue;
  expiresAt : timeValue;
  clicks : list ClickEvent
}.

(** [urlStorage]: the module-level [Map]. *)
Abbreviation registry := (gmap string UrlEntry).

Module UrlService.

(** [urlStorage.has(k)]. *)
Definition has (urlStorage : registry) (k : string) : bool :=
  match urlStorage !! k with Some _ => true | None => false end.

(** The do-while loop of [generateShortcode].  [draws] lists the results
    of the successive calls [nanoid(6)]; the first one that is not a key of
    [urlStorage] is returned.  [None]: every draw supplied was taken, the
    loop is still running. *)
Fixpoint generateShortcode (draws : list string) (urlStorage : registry)
  : option string :=
  match draws with
  | [] => None
  | shortcode :: draws' =>
      if has urlStorage shortcode then generateShortcode draws' urlStorage
      else Some shortcode
  end.

Definition shortcodeExists (shortcode : string) (urlStorage : registry) : bool :=
  has urlStorage shortcode.

Definition storeUrl (urlEntry : UrlEntry) (urlStorage : registry) : registry :=
  <[shortcode urlEntry := urlEntry]> urlStorage.

Definition getUrl (shortcode : string) (urlStorage : registry) : option UrlEntry :=
  urlStorage !! shortcode.

(** [urlEntry.clicks.push(clickData)]. *)
Definition push_click (clickData : ClickEvent) (urlEntry : UrlEntry) : UrlEntry :=
  {| shortcode := shortcode urlEntry;
     originalUrl := originalUrl urlEntry;
     createdAt := createdAt urlEntry;
     expiresAt := expiresAt urlEntry;
     clicks := clicks urlEntry ++ [clickData] |}.

Definition recordClick (shortcode : string) (clickData : ClickEvent)
    (urlStorage : registry) : registry :=
  match urlStorage !! shortcode with
  | Some urlEntry => <[shortcode := push_click clickData urlEntry]> urlStorage
  | None => urlStorage
  end.

(** The [for ... of urlStorage.entries()] loop: the keys whose entry has
    [new Date(urlEntry.expiresAt) < now], in iteration order. *)
Fixpoint collectExpired (now : Z) (entries : list (string * UrlEntry))
  : list string :=
  match entries with
  | [] => []
  | (shortcode, urlEntry) :: entries' =>
      if date_lt (expiresAt urlEntry) (Some now)
      then shortcode :: collectExpired now entries'
      else collectExpired now entries'
  end.

(** [expiredShortcodes.forEach(shortcode => urlStorage.delete(shortcode))]. *)
Definition deleteAll {A} (keys : list string) (urlStorage : gmap string A)
  : gmap string A :=
  foldl (fun m k => delete k m) urlStorage keys.

(** [cleanupExpiredUrls] with the clock reading [now] made an argument:
    the registry afterwards and the returned count. *)
Definition cleanupExpiredUrls (now : Z) (urlStorage : registry)
  : registry * nat :=
  let expiredShortcodes := collectExpired now (map_to_list urlStorage) in
  (deleteAll expiredShortcodes urlStorage, length expiredShortcodes).

(** A call of one of the mutating operations, and a run of such calls. *)
Inductive call : Type :=
| CallStore (urlEntry : UrlEntry)
| CallClick (shortcode : string) (clickData : ClickEvent)
| CallCleanup (now : Z).

Definition step (urlStorage : registry) (c : call) : registry :=
  match c with
  | CallStore urlEntry => storeUrl urlEntry urlStorage
  | CallClick shortcode clickData => recordClick shortcode clickData urlStorage
  | CallCleanup now => fst (cleanupExpiredUrls now urlStorage)
  end.

Definition run (calls : list call) (urlStorage : registry) : registry :=
  foldl step urlStorage calls.

End UrlService.

Import UrlService.

(** *** Entry objects by reference

    In the JS code the [Map] holds references to entry objects, and
    [recordClick] pushes onto the object it finds before setting the key
    again.  [ByReference] spells this out: a heap of entry objects (the
    [clicks] array counted as part of its entry) and a [Map] from
    shortcode to reference.  The lemmas of section [Refinement] below show
    that, read through [view], these operations are the ones of
    [UrlService] as long as every key holds an object carrying that key as
    its [shortcode], which the operations maintain. *)
Module ByReference.

Definition ref : Type := positive.

Record store : Type := mkStore {
  objects : gmap ref UrlEntry;
  urlStorage : gmap string ref
}.

(** The registry a store denotes: each key with the object it refers to. *)
Definition view (s : store) : registry :=
  omap (fun r => objects s !! r) (urlStorage s).

(** [storeUrl(urlEntry)] for the object at [r]; a reference always
    points to an object, so the [None] branch is never taken. *)
Definition storeUrl (r : ref) (s : store) : store :=
  match objects s !! r with
  | Some urlEntry =>
      mkStore (objects s) (<[shortcode urlEntry := r]> (urlStorage s))
  | None => s
  end.

Definition getUrl (shortcode : string) (s : store) : option ref :=
  urlStorage s !! shortcode.

(** The push mutates the object in place; the [set] re-files the same
    reference. *)
Definition recordClick (shortcode : string) (clickData : ClickEvent)
    (s : store) : store :=
  match urlStorage s !! shortcode with
  | Some r =>
      mkStore (alter (push_click clickData) r (objects s))
              (<[shortcode := r]> (urlStorage s))
  | None => s
  end.

Fixpoint collectExpired (now : Z) (objs : gmap ref UrlEntry)
    (entries : list (string * ref)) : list string :=
  match entries with
  | [] => []
  | (shortcode, r) :: entries' =>
      match objs !! r with
      | Some urlEntry =>
          if date_lt (expiresAt urlEntry) (Some now)
          then shortcode :: collectExpired now objs entries'
          else collectExpired now objs entries'
      | None => collectExpired now objs entries'
      end
  end.

Definition cleanupExpiredUrls (now : Z) (s : store) : store * nat :=
  let expiredShortcodes :=
    collectExpired now (objects s) (map_to_list (urlStorage s)) in
  (mkStore (objects s) (deleteAll expiredShortcodes (urlStorage s)),
   length expiredShortcodes).

(** Every key refers to an object that carries the key as its
    [shortcode]. *)
Definition keyed (s : store) : Prop :=
  forall k r, urlStorage s !! k = Some r ->
    exists e, objects s !! r = Some e /\ shortcode e = k.

End ByReference.

(** What [nanoid(6)] returns: six characters of nanoid's URL alphabet,
    the letters, the digits, [_] and [-]. *)
Definition is_nanoid_char (a : ascii) : bool :=
  is_alnum a || Ascii.eqb a "_" || Ascii.eqb a "-".

Definition nanoid6 (s : string) : bool :=
  (String.length s =? 6)%nat && all_chars is_nanoid_char s.

(** The shape the data model gives a shortcode: 4 to 10 characters, all
    alphanumeric. *)
Definition wellformed_shortcode (s : string) : bool :=
  (4 <=? String.length s)%nat && (String.length s <=? 10)%nat
  && all_chars is_alnum s.

(** The registry invariant: an entry stored under key [c] carries [c] in
    its [shortcode] field. *)
Definition keyed_by_shortcode (urlStorage : registry) : Prop :=
  forall k e, urlStorage !! k = Some e -> shortcode e = k.

(** At most one stored entry carries a given shortcode. *)
Definition shortcode_unique (urlStorage : registry) : Prop :=
  forall k1 k2 e1 e2,
    urlStorage !! k1 = Some e1 -> urlStorage !! k2 = Some e2 ->
    shortcode e1 = shortcode e2 -> k1 = k2 /\ e1 = e2.

Definition registry_inv (urlStorage : registry) : Prop :=
  keyed_by_shortcode urlStorage /\ shortcode_unique urlStorage.

(** A call that leaves the entry [e] in place: it does not store under
    [e]'s shortcode, and it does not sweep at an instant after [e]'s
    expiry. *)
Definition keeps (e : UrlEntry) (c : call) : Prop :=
  match c with
  | CallStore urlEntry => shortcode urlEntry <> shortcode e
  | CallClick _ _ => True
  | CallCleanup now => date_lt (expiresAt e) (Some now) = false
  end.

(** What stays fixed of a stored entry [e] while it is in the registry:
    everything but its clicks. *)
Definition same_mapping (e e' : UrlEntry) : Prop :=
  shortcode e' = shortcode e /\ originalUrl e' = originalUrl e
  /\ createdAt e' = createdAt e /\ expiresAt e' = expiresAt e.

(** Entries and a click used in the examples. *)
Definition entry_a : UrlEntry :=
  mkEntry "abcd" "https://example.com/a" (Some 0%Z) (Some 60000%Z) [].

Definition entry_b : UrlEntry :=
  mkEntry "abcd" "https://example.org/b" (Some 1000%Z) (Some 61000%Z) [].

Definition entry_c : UrlEntry :=
  mkEntry "wxyz" "https://example.net/c" (Some 0%Z) (Some 120000%Z) [].

Definition entry_odd : UrlEntry :=
  mkEntry "x-" "https://example.com/odd" (Some 0%Z) (Some 60000%Z) [].

Definition click_1 : ClickEvent :=
  mkClick "2025-07-11T12:05:00.000Z" "Direct" "Unknown" "Unknown".

(** *** The [Map] with its insertion order

    A JS [Map] iterates in insertion order: [set] on a new key appends,
    [set] on a present key replaces the value where it stands, [delete]
    takes the key out.  [InOrder] models [urlStorage] as the list of its
    (key, value) pairs in that order, with the operations of
    urlService.js on it, [getAllUrls] included.  A [Map] holds each key
    once: the states are the lists whose keys are without duplicates, and
    the operations keep them so. *)
Module InOrder.

Abbreviation omap := (list (string * UrlEntry)).

Fixpoint map_get (k : string) (l : omap) : option UrlEntry :=
  match l with
  | [] => None
  | (k', v) :: l' => if String.eqb k' k then Some v else map_get k l'
  end.

Fixpoint map_set (k : string) (v : UrlEntry) (l : omap) : omap :=
  match l with
  | [] => [(k, v)]
  | (k', v') :: l' =>
      if String.eqb k' k then (k, v) :: l' else (k', v') :: map_set k v l'
  end.

Fixpoint map_delete (k : string) (l : omap) : omap :=
  match l with
  | [] => []
  | (k', v') :: l' =>
      if String.eqb k' k then l' else (k', v') :: map_delete k l'
  end.

Definition shortcodeExists (shortcode : string) (urlStorage : omap) : bool :=
  match map_get shortcode urlStorage with Some _ => true | None => false end.

Definition storeUrl (urlEntry : UrlEntry) (urlStorage : omap) : omap :=
  map_set (shortcode urlEntry) urlEntry urlStorage.

Definition getUrl (shortcode : string) (urlStorage : omap) : option UrlEntry :=
  map_get shortcode urlStorage.

Definition recordClick (shortcode : string) (clickData : ClickEvent)
    (urlStorage : omap) : omap :=
  match map_get shortcode urlStorage with
  | Some urlEntry => map_set shortcode (push_click clickData urlEntry) urlStorage
  | None => urlStorage
  end.

(** [Array.from(urlStorage.values())]. *)
Definition getAllUrls (urlStorage : omap) : list UrlEntry :=
  map snd urlStorage.

Definition cleanupExpiredUrls (now : Z) (urlStorage : omap) : omap * nat :=
  let expiredShortcodes := collectExpired now urlStorage in
  (foldl (fun m k => map_delete k m) urlStorage expiredShortcodes,
   length expiredShortcodes).

(** The registry a [Map] state denotes once the order is forgotten. *)
Definition contents (urlStorage : omap) : registry := list_to_map urlStorage.

(** The states of a [Map]: each key once. *)
Definition wf (urlStorage : omap) : Prop := NoDup (urlStorage.*1).

End InOrder.

(** A store with one entry object, filed under its shortcode. *)
Definition store_a : ByReference.store :=
  ByReference.mkStore {[ 1%positive := entry_a ]} {[ "abcd" := 1%positive ]}.

(* ===================================================================== *)
(** ** Frontend: pages/Statistics.jsx and the URL form                    *)
(* ===================================================================== *)

(** A React handler is modelled as the function from the state it reads
    to the state its setters install; logging and snackbar messages are
    left out. *)

Module StatisticsPage.

Record HistoryItem : Type := mkHistoryItem {
  shortcode : string;
  timestamp : string;
  totalClicks : Z
}.

(** The search history after a successful fetch for the input
    [shortcode0], as [fetchStatistics] computes it:
    [[newHistoryItem, ...searchHistory.filter(item => item.shortcode !==
    shortcode.trim())].slice(0, 10)]. *)
Definition updatedHistory (shortcode0 timestamp0 : string) (totalClicks0 : Z)
    (searchHistory : list HistoryItem) : list HistoryItem :=
  let newHistoryItem := mkHistoryItem (trim shortcode0) timestamp0 totalClicks0 in
  take 10
    (newHistoryItem
     :: List.filter
          (fun item => negb (String.eqb (shortcode item) (trim shortcode0)))
          searchHistory).

(** *** The two tallies of the statistics page

    [getLocationDistribution] and [getTopReferrers] count keys in an
    object created as [{}], list its entries and sort them by count.

    The counter object is modelled by its own properties in creation
    order, [(key, count)].  [counts[key] = (counts[key] || 0) + 1] is
    [bump]: a key already counted gets one more, a new key is created
    with 1.  This is what the statement does for every key but the names
    an empty object inherits ([inherited_names]): for those the value read
    is not a number, and the tallies are modelled as [None]. *)

Definition inherited_names : list string :=
  ["constructor"; "__defineGetter__"; "__defineSetter__"; "hasOwnProperty";
   "__lookupGetter__"; "__lookupSetter__"; "isPrototypeOf";
   "propertyIsEnumerable"; "toString"; "valueOf"; "__proto__";
   "toLocaleString"].

Fixpoint bump (key : string) (counts : list (string * nat))
  : list (string * nat) :=
  match counts with
  | [] => [(key, 1%nat)]
  | (k, n) :: counts' =>
      if String.eqb k key then (k, S n) :: counts'
      else (k, n) :: bump key counts'
  end.

(** The [forEach] loop over the keys. *)
Definition tally (keys : list string) : list (string * nat) :=
  foldl (fun counts key => bump key counts) [] keys.

(** [Object.entries] lists the keys that are array indices first, in
    ascending numeric order, and then the other keys in creation order.
    An array index is the canonical decimal spelling of an integer from 0
    to 2^32 - 2. *)
Definition digit_value (a : ascii) : option N :=
  if is_digit a then Some (code a - 48)%N else None.

Fixpoint decimal (s : string) (acc : N) : option N :=
  match s with
  | EmptyString => Some acc
  | String a s' =>
      match digit_value a with
      | Some d => decimal s' (10 * acc + d)%N
      | None => None
      end
  end.

Definition array_index (s : string) : option N :=
  match s with
  | EmptyString => None
  | String "0" EmptyString => Some 0%N
  | String "0" _ => None
  | _ =>
      match decimal s 0 with
      | Some n => if (n <=? 4294967294)%N then Some n else None
      | None => None
      end
  end.

Definition is_array_index (s : string) : bool :=
  match array_index s with Some _ => true | None => false end.

Fixpoint insert_by_index (x : string * nat) (l : list (string * nat))
  : list (string * nat) :=
  match l with
  | [] => [x]
  | y :: l' =>
      if (default 0 (array_index (fst x)) <=? default 0 (array_index (fst y)))%N
      then x :: y :: l'
      else y :: insert_by_index x l'
  end.

Definition Object_entries (counts : list (string * nat))
  : list (string * nat) :=
  foldr insert_by_index [] (List.filter (fun kv => is_array_index (fst kv)) counts)
  ++ List.filter (fun kv => negb (is_array_index (fst kv))) counts.

(** [.sort(([, a], [, b]) => b - a)]: by count, largest first; the sort
    is stable, entries with equal counts keep their order. *)
Fixpoint insert_by_count (x : string * nat) (l : list (string * nat))
  : list (string * nat) :=
  match l with
  | [] => [x]
  | y :: l' =>
      if (snd y <=? snd x)%nat then x :: y :: l'
      else y :: insert_by_count x l'
  end.

Definition sort_by_count (l : list (string * nat)) : list (string * nat) :=
  foldr insert_by_count [] l.

Definition ranking (keys : list string) : option (list (string * nat)) :=
  if existsb (includes inherited_names) keys then None
  else Some (sort_by_count (Object_entries (tally keys))).

(** [click.location || 'Unknown']. *)
Definition location_key (click : ClickEvent) : string :=
  match location click with
  | EmptyString => "Unknown"
  | l => l
  end.

(** The pair [(l, n)] stands for the object [{ location: l, count: n }]. *)
Definition getLocationDistribution (clicks : list ClickEvent)
  : option (list (string * nat)) :=
  ranking (map location_key clicks).

Section WithExtractDomain.

(** [extractDomain] of utils/helpers. *)
Variable extractDomain : string -> string.

Definition referrer_key (click : ClickEvent) : string :=
  if String.eqb (referrer click) "Direct" then "Direct Access"
  else extractDomain (referrer click).

(** The pair [(r, n)] stands for the object [{ referrer: r, count: n }]. *)
Definition getTopReferrers (clicks : list ClickEvent)
  : option (list (string * nat)) :=
  option_map (take 5) (ranking (map referrer_key clicks)).

End WithExtractDomain.

(** How many times a key occurs in a list of keys. *)
Definition occurrences (k : string) (keys : list string) : nat :=
  length (List.filter (String.eqb k) keys).

(** Largest count first. *)
Definition by_count_desc (x y : string * nat) : Prop := (snd y <= snd x)%nat.

End StatisticsPage.

Module UrlShortenerPage.

Record UrlFormEntry : Type := mkRow {
  url : string;
  validity : string;
  shortcode : string
}.

(** [{ url: '', validity: '', shortcode: '' }]. *)
Definition blank : UrlFormEntry := mkRow "" "" "".

(** The three field names the handlers are called with. *)
Inductive field : Type := Url | Validity | Shortcode.

Definition field_name (f : field) : string :=
  match f with Url => "url" | Validity => "validity" | Shortcode => "shortcode" end.

Definition set_field (f : field) (value : string) (row : UrlFormEntry)
  : UrlFormEntry :=
  match f with
  | Url => mkRow value (validity row) (shortcode row)
  | Validity => mkRow (url row) value (shortcode row)
  | Shortcode => mkRow (url row) (validity row) value
  end.

(** The component state the handlers work on: the rows, the results of
    the last submission (of some type [R]) and the validation errors, an
    object from row index to an object from field name to message. *)
Record FormState (R : Type) : Type := mkForm {
  urlEntries : list UrlFormEntry;
  results : list R;
  errors : gmap nat (gmap string string)
}.
Arguments mkForm {R} urlEntries results errors.
Arguments urlEntries {R} _.
Arguments results {R} _.
Arguments errors {R} _.

Definition initial {R} : FormState R := mkForm [blank] [] ∅.

(** [arr.filter((_, i) => p(i))]. *)
Fixpoint filter_index {A} (p : nat -> bool) (i : nat) (l : list A) : list A :=
  match l with
  | [] => []
  | x :: l' =>
      if p i then x :: filter_index p (S i) l' else filter_index p (S i) l'
  end.

Definition addUrlEntry {R} (st : FormState R) : FormState R :=
  if (length (urlEntries st) <? 5)%nat
  then mkForm (urlEntries st ++ [blank]) (results st) (errors st)
  else st.

Definition removeUrlEntry {R} (index : nat) (st : FormState R) : FormState R :=
  if (1 <? length (urlEntries st))%nat
  then mkForm (filter_index (fun i => negb (i =? index)%nat) 0 (urlEntries st))
              (results st)
              (delete index (errors st))
  else st.

(** [updateUrlEntry(index, field, value)].  [newEntries[index][field] =
    value] throws when there is no row at [index]: [None].  The error of
    the field is dropped when one is recorded (a non-empty message). *)
Definition updateUrlEntry {R} (index : nat) (f : field) (value : string)
    (st : FormState R) : option (FormState R) :=
  match urlEntries st !! index with
  | None => None
  | Some row =>
      let newEntries := <[index := set_field f value row]> (urlEntries st) in
      let newErrors :=
        match errors st !! index with
        | Some fieldErrors =>
            match fieldErrors !! field_name f with
            | Some (String _ _) =>
                <[index := delete (field_name f) fieldErrors]> (errors st)
            | _ => errors st
            end
        | None => errors st
        end in
      Some (mkForm newEntries (results st) newErrors)
  end.

Definition handleUrlBlur {R} (index : nat) (value : string) (st : FormState R)
  : option (FormState R) :=
  let trimmedValue := trim value in
  if String.eqb trimmedValue value then Some st
  else updateUrlEntry index Url trimmedValue st.

Definition clearForm {R} (st : FormState R) : FormState R :=
  mkForm [blank] [] ∅.

(** The user actions on the form, and a run of them; an action whose
    handler throws leaves the state as it was. *)
Inductive action : Type :=
| Add
| Remove (index : nat)
| Update (index : nat) (f : field) (value : string)
| Blur (index : nat) (value : string)
| Clear.

Definition act {R} (st : FormState R) (a : action) : FormState R :=
  match a with
  | Add => addUrlEntry st
  | Remove index => removeUrlEntry index st
  | Update index f value => default st (updateUrlEntry index f value st)
  | Blur index value => default st (handleUrlBlur index value st)
  | Clear => clearForm st
  end.

Definition acts {R} (l : list action) (st : FormState R) : FormState R :=
  foldl act st l.

End UrlShortenerPage.

(** The checks [validateUrl] makes on the parsed [hostname], in one
    predicate: non-empty, made of letters, digits, dots and hyphens,
    containing a dot, and neither starting nor ending with a hyphen or a
    dot. *)
Definition hostname_accepted (h : string) : bool :=
  test_plus is_host_char h && includes_char "." h
  && negb (startsWith_char "-" h) && negb (endsWith_char "-" h)
  && negb (startsWith_char "." h) && negb (endsWith_char "." h).

(** A string that does not begin with whitespace. *)
Definition starts_clean (s : string) : Prop :=
  match s with
  | EmptyString => True
  | String a _ => is_whitespace a = false
  end.

(** The clicks that a run of calls records on the code [c], in order. *)
Fixpoint clicks_on (c : string) (calls : list call) : list ClickEvent :=
  match calls with
  | [] => []
  | CallClick c' ev :: calls' =>
      if String.eqb c' c then ev :: clicks_on c calls' else clicks_on c calls'
  | _ :: calls' => clicks_on c calls'
  end.

(* ===================================================================== *)
(** ** Evaluation on concrete inputs                                      *)
(* ===================================================================== *)

Example trim_ex : trim "  ab c  " = "ab c".
Proof. reflexivity. Qed.

Example URL_plain_ex :
  URL_plain "https://Example.com/a?b" = Some (mkURL "https:" "example.com").
Proof. reflexivity. Qed.

Example validateShortcode_reserved :
  validateShortcode (Some "Admin")
  = Invalid "Shortcode uses a reserved word. Please choose a different shortcode.".
Proof. reflexivity. Qed.

Example validateShortcode_not_alnum :
  validateShortcode (Some "ab-cd")
  = Invalid "Shortcode can only contain alphanumeric characters (a-z, A-Z, 0-9)".
Proof. reflexivity. Qed.

Example validateValidity_default : validateValidity JUndefined = Valid 30%Z.
Proof. reflexivity. Qed.

Example validateUrl_ftp :
  forall URL, URL "ftp://example.com" = Some (mkURL "ftp:" "example.com") ->
  validateUrl URL (Some "ftp://example.com")
  = Invalid "URL must use http:// or https:// protocol".
Proof. intros URL H. cbv. cbv in H. rewrite H. reflexivity. Qed.

(* ===================================================================== *)
(** ** Properties of the validators                                       *)
(* ===================================================================== *)

Section StringFacts.

Lemma length_toLowerCase (s : string) :
  String.length (toLowerCase s) = String.length s.
Proof. induction s as [|a s IH]; simpl; [reflexivity | now rewrite IH]. Qed.

Lemma test_plus_all_chars (p : ascii -> bool) (s : string) :
  s <> EmptyString -> test_plus p s = all_chars p s.
Proof. destruct s; [congruence | reflexivity]. Qed.

Lemma includes_length (arr : list string) (s : string) :
  includes arr s = true ->
  exists w, In w arr /\ String.length w = String.length s.
Proof.
  unfold includes. intros H. apply existsb_exists in H as (w & Hin & Heq).
  apply String.eqb_eq in Heq. subst w. eauto.
Qed.

(** No reserved word is 4 or 10 characters long. *)
Lemma reserved_lengths (w : string) :
  In w reservedWords ->
  String.length w <> 4%nat /\ String.length w <> 10%nat.
Proof.
  unfold reservedWords. simpl.
  intros [<-|[<-|[<-|[<-|[<-|[<-|[]]]]]]]; simpl; split; discriminate.
Qed.

Lemma not_reserved_of_length (s : string) :
  String.length s = 4%nat \/ String.length s = 10%nat ->
  includes reservedWords (toLowerCase s) = false.
Proof.
  intros Hlen. destruct (includes reservedWords (toLowerCase s)) eqn:E; [|reflexivity].
  apply includes_length in E as (w & Hin & Hw).
  rewrite length_toLowerCase in Hw.
  destruct (reserved_lengths w Hin) as [H4 H10]. lia.
Qed.

End StringFacts.

(** C6 (as stated, refuted): an absent shortcode is not accepted by
    [validateShortcode]; for [undefined]/[null] the result has
    [isValid = false]. *)
Lemma validateShortcode_absent_not_valid :
  ~ (isValid (validateShortcode None) = true).
Proof. simpl. discriminate. Qed.

(** C6 (amended): [validateShortcode] rejects an absent shortcode, whether
    [undefined]/[null] or the empty string, with the reason
    "Shortcode cannot be empty". *)
Theorem validateShortcode_absent_rejected :
  validateShortcode None = Invalid "Shortcode cannot be empty"
  /\ validateShortcode (Some "") = Invalid "Shortcode cannot be empty".
Proof. split; reflexivity. Qed.

(** C9: validation boundaries.  An alphanumeric shortcode of length 3 or 11
    is rejected and one of length 4 or 10 is accepted; the validity values
    0 and 43201 are rejected, 1 and 43200 are accepted (and returned). *)
Theorem validation_boundaries (s : string) :
  all_chars is_alnum s = true ->
  (String.length s = 3%nat \/ String.length s = 11%nat ->
     validateShortcode (Some s)
     = Invalid "Shortcode must be between 4 and 10 characters long")
  /\ (String.length s = 4%nat \/ String.length s = 10%nat ->
     validateShortcode (Some s) = Valid tt)
  /\ isValid (validateValidity (JNumber 0)) = false
  /\ isValid (validateValidity (JNumber 43201)) = false
  /\ validateValidity (JNumber 1) = Valid 1%Z
  /\ validateValidity (JNumber 43200) = Valid 43200%Z.
Proof.
  intros Halnum. repeat split; try reflexivity.
  - intros Hlen. destruct s as [|a s]; [simpl in Hlen; lia|].
    unfold validateShortcode.
    destruct Hlen as [-> | ->]; reflexivity.
  - intros Hlen. destruct s as [|a s]; [simpl in Hlen; lia|].
    unfold validateShortcode.
    rewrite test_plus_all_chars by discriminate.
    rewrite Halnum, (not_reserved_of_length _ Hlen).
    destruct Hlen as [-> | ->]; reflexivity.
Qed.

Lemma validation_boundaries_witness :
  all_chars is_alnum "abcd" = true
  /\ validateShortcode (Some "abcd") = Valid tt.
Proof.
  split; [reflexivity|].
  apply (validation_boundaries "abcd"); [reflexivity | left; reflexivity].
Defined.

(** C10 (as stated, refuted): inputs that contain whitespace and are
    accepted.  A leading space is removed by [trim] before any check; a
    TAB inside the path is not a space character, and the URL parser
    does not reject it. *)
Lemma validateUrl_accepts_whitespace :
  any_char is_whitespace " https://example.com" = true
  /\ validateUrl URL_plain (Some " https://example.com")
     = Valid "https://example.com"
  /\ any_char is_whitespace (String.append "https://example.com/a" (String "009" "b")) = true
  /\ isValid (validateUrl URL_plain
       (Some (String.append "https://example.com/a" (String "009" "b")))) = true.
Proof. repeat split; reflexivity. Qed.

(** C10 (amended): whatever the URL parser, an input whose trimmed form
    contains a space character is rejected with the reason
    "URL cannot contain spaces".  An accepted input is returned trimmed,
    with no space character in it, and two non-empty inputs that differ
    only by whitespace at their ends get the same result. *)
Theorem validateUrl_rejects_inner_space
    (URL : string -> option URLObject) (raw : string) :
  (includes_char " " (trim raw) = true ->
     validateUrl URL (Some raw) = Invalid "URL cannot contain spaces")
  /\ (forall u, validateUrl URL (Some raw) = Valid u ->
        u = trim raw /\ includes_char " " u = false)
  /\ (forall raw', raw <> "" -> raw' <> "" -> trim raw = trim raw' ->
        validateUrl URL (Some raw) = validateUrl URL (Some raw')).
Proof.
  split; [|split].
  - intros H. unfold validateUrl.
    destruct raw as [|a raw]; [discriminate H|].
    cbv zeta. now rewrite H.
  - intros u. unfold validateUrl.
    destruct raw as [|a raw]; [discriminate|]. cbv zeta.
    destruct (includes_char " " (trim (String a raw))) eqn:Hsp; [discriminate|].
    destruct (URL (trim (String a raw))) as [urlObj|]; [|discriminate].
    repeat (match goal with
            | |- (if ?b then _ else _) = _ -> _ => destruct b; [discriminate|]
            end).
    intros [= <-]. done.
  - intros raw' Hne Hne' Htrim. unfold validateUrl.
    destruct raw as [|a raw]; [done|]. destruct raw' as [|a' raw']; [done|].
    cbv zeta. now rewrite Htrim.
Qed.

Lemma validateUrl_rejects_inner_space_witness :
  includes_char " " (trim " https://example.com/a b ") = true
  /\ validateUrl URL_plain (Some " https://example.com/a b ")
     = Invalid "URL cannot contain spaces".
Proof.
  split; [reflexivity|].
  apply (validateUrl_rejects_inner_space URL_plain " https://example.com/a b ").
  reflexivity.
Defined.

(* ===================================================================== *)
(** ** Properties of the registry                                         *)
(* ===================================================================== *)

Section RegistryFacts.

Implicit Types (m urlStorage : registry) (e : UrlEntry) (k c : string).

Lemma has_true m k : has m k = true <-> is_Some (m !! k).
Proof.
  unfold has. destruct (m !! k); split; intros H; try done.
Qed.

Lemma has_false m k : has m k = false <-> m !! k = None.
Proof. unfold has. destruct (m !! k); split; intros H; done. Qed.

Lemma lookup_deleteAll {A} (keys : list string) (m : gmap string A) k :
  deleteAll keys m !! k = if decide (k ∈ keys) then None else m !! k.
Proof.
  unfold deleteAll. revert m.
  induction keys as [|k' keys IH]; intros m; simpl.
  - destruct (decide (k ∈ [])) as [H|H]; [by apply elem_of_nil in H | done].
  - rewrite IH.
    destruct (decide (k ∈ k' :: keys)) as [Hin|Hnin];
      destruct (decide (k ∈ keys)) as [Hin'|Hnin']; try done.
    + apply elem_of_cons in Hin as [->|Hin]; [apply lookup_delete_eq | done].
    + exfalso. apply Hnin. by apply elem_of_cons; right.
    + apply lookup_delete_ne. intros ->. apply Hnin. by apply elem_of_cons; left.
Qed.

Lemma size_deleteAll {A} (keys : list string) (m : gmap string A) :
  NoDup keys -> (forall k, k ∈ keys -> is_Some (m !! k)) ->
  size m = (size (deleteAll keys m) + length keys)%nat.
Proof.
  unfold deleteAll. revert m.
  induction keys as [|k keys IH]; intros m Hnd Hin; simpl; [lia|].
  apply NoDup_cons in Hnd as [Hk Hnd].
  destruct (Hin k) as [x Hx]; [set_solver|].
  assert (size m <> 0%nat) as Hpos.
  { intros Hz. apply map_size_empty_iff in Hz. subst m. by rewrite lookup_empty in Hx. }
  pose proof (map_size_delete_Some k m (mk_is_Some _ _ Hx)) as Hdel.
  assert (size (delete k m)
          = (size (deleteAll keys (delete k m)) + length keys)%nat) as IH'; [|unfold deleteAll in IH'; lia].
  apply IH; [done|].
  intros k' Hk'. rewrite lookup_delete_ne by set_solver. apply Hin. set_solver.
Qed.

Lemma elem_of_collectExpired now (l : list (string * UrlEntry)) k :
  k ∈ collectExpired now l <->
  exists e, (k, e) ∈ l /\ date_lt (expiresAt e) (Some now) = true.
Proof.
  induction l as [|[k' e'] l IH]; simpl.
  - split; [intros H; by apply elem_of_nil in H
           | intros (e & H & _); by apply elem_of_nil in H].
  - destruct (date_lt (expiresAt e') (Some now)) eqn:E.
    + rewrite elem_of_cons, IH. split.
      * intros [Heq | (e & He & Hlt)].
        -- exists e'. split; [rewrite Heq; by apply elem_of_cons; left | done].
        -- exists e. split; [by apply elem_of_cons; right | done].
      * intros (e & [Heq | He]%elem_of_cons & Hlt);
          [left; congruence | right; eauto].
    + rewrite IH. split.
      * intros (e & He & Hlt). exists e. split; [by apply elem_of_cons; right | done].
      * intros (e & [Heq | He]%elem_of_cons & Hlt); [congruence | eauto].
Qed.

Lemma NoDup_collectExpired now (l : list (string * UrlEntry)) :
  NoDup (l.*1) -> NoDup (collectExpired now l).
Proof.
  induction l as [|[k e] l IH]; simpl; [constructor|].
  intros [Hk Hnd]%NoDup_cons.
  destruct (date_lt (expiresAt e) (Some now)); [|auto].
  apply NoDup_cons. split; [|auto].
  intros (e' & He' & _)%elem_of_collectExpired.
  apply Hk. apply list_elem_of_fmap. by exists (k, e').
Qed.

(** The keys collected by the sweep are exactly the keys of the expired
    entries. *)
Lemma elem_of_expired now m k :
  k ∈ collectExpired now (map_to_list m) <->
  exists e, m !! k = Some e /\ date_lt (expiresAt e) (Some now) = true.
Proof.
  rewrite elem_of_collectExpired.
  split; intros (e & He & Hlt); exists e; split; auto;
    by apply elem_of_map_to_list.
Qed.

Lemma lookup_cleanup now m k :
  fst (cleanupExpiredUrls now m) !! k =
  match m !! k with
  | Some e => if date_lt (expiresAt e) (Some now) then None else Some e
  | None => None
  end.
Proof.
  unfold cleanupExpiredUrls. simpl. rewrite lookup_deleteAll.
  destruct (decide (k ∈ collectExpired now (map_to_list m))) as [Hin|Hnin].
  - apply elem_of_expired in Hin as (e & -> & ->). done.
  - destruct (m !! k) as [e|] eqn:Hk; [|done].
    destruct (date_lt (expiresAt e) (Some now)) eqn:E; [|done].
    exfalso. apply Hnin. apply elem_of_expired. eauto.
Qed.

Lemma keyed_unique m : keyed_by_shortcode m -> shortcode_unique m.
Proof.
  intros Hk k1 k2 e1 e2 H1 H2 Heq.
  assert (k1 = k2) as -> by (rewrite <- (Hk _ _ H1), <- (Hk _ _ H2); done).
  split; [done | congruence].
Qed.

Lemma keyed_storeUrl e m :
  keyed_by_shortcode m -> keyed_by_shortcode (storeUrl e m).
Proof.
  intros Hk k e'. unfold storeUrl.
  destruct (decide (shortcode e = k)) as [<-|Hne].
  - rewrite lookup_insert_eq. congruence.
  - rewrite lookup_insert_ne by done. apply Hk.
Qed.

Lemma keyed_recordClick c ev m :
  keyed_by_shortcode m -> keyed_by_shortcode (recordClick c ev m).
Proof.
  intros Hk k e'. unfold recordClick.
  destruct (m !! c) as [e|] eqn:Hc; [|apply Hk].
  destruct (decide (c = k)) as [<-|Hne].
  - rewrite lookup_insert_eq. intros [= <-]. simpl. by apply Hk.
  - rewrite lookup_insert_ne by done. apply Hk.
Qed.

Lemma keyed_cleanup now m :
  keyed_by_shortcode m -> keyed_by_shortcode (fst (cleanupExpiredUrls now m)).
Proof.
  intros Hk k e'. rewrite lookup_cleanup.
  destruct (m !! k) as [e|] eqn:Hc; [|done].
  destruct (date_lt _ _); [done|]. intros [= <-]. by apply Hk.
Qed.

Lemma keyed_step m (cl : call) :
  keyed_by_shortcode m -> keyed_by_shortcode (step m cl).
Proof.
  intros Hk. destruct cl as [e|c ev|now]; simpl.
  - by apply keyed_storeUrl.
  - by apply keyed_recordClick.
  - by apply keyed_cleanup.
Qed.

Lemma keyed_run (calls : list call) m :
  keyed_by_shortcode m -> keyed_by_shortcode (run calls m).
Proof.
  unfold run. revert m. induction calls as [|cl calls IH]; intros m Hk; simpl; [done|].
  apply IH. by apply keyed_step.
Qed.

End RegistryFacts.

(** *** The value-level registry against the store of objects *)

Section Refinement.

Import ByReference.

Implicit Types (s : store) (r : ref) (k c : string).

Lemma lookup_view s k :
  view s !! k = urlStorage s !! k ≫= (fun r => objects s !! r).
Proof. unfold view. apply lookup_omap. Qed.

(** Distinct keys hold distinct objects. *)
Lemma keyed_separated s k1 k2 r :
  keyed s ->
  urlStorage s !! k1 = Some r ->
  urlStorage s !! k2 = Some r -> k1 = k2.
Proof.
  intros Hk H1 H2.
  destruct (Hk _ _ H1) as (e1 & He1 & <-).
  destruct (Hk _ _ H2) as (e2 & He2 & <-). congruence.
Qed.

Lemma view_keyed s : keyed s -> keyed_by_shortcode (view s).
Proof.
  intros Hk k e. rewrite lookup_view.
  destruct (urlStorage s !! k) as [r|] eqn:Hr; [|done].
  destruct (Hk _ _ Hr) as (e' & He' & <-). simpl. congruence.
Qed.

Lemma view_getUrl s c :
  UrlService.getUrl c (view s) = getUrl c s ≫= (fun r => objects s !! r).
Proof. apply lookup_view. Qed.

Lemma view_storeUrl s r e :
  objects s !! r = Some e ->
  view (storeUrl r s) = UrlService.storeUrl e (view s).
Proof.
  intros Hr. unfold storeUrl, UrlService.storeUrl. rewrite Hr.
  apply map_eq. intros k. rewrite lookup_view. simpl.
  destruct (decide (shortcode e = k)) as [<-|Hne].
  - by rewrite !lookup_insert_eq.
  - rewrite !lookup_insert_ne by done. by rewrite lookup_view.
Qed.

Lemma view_recordClick s c ev :
  keyed s ->
  view (recordClick c ev s) = UrlService.recordClick c ev (view s).
Proof.
  intros Hk. unfold recordClick, UrlService.recordClick.
  rewrite (lookup_view s c).
  destruct (urlStorage s !! c) as [r|] eqn:Hc; [|done].
  destruct (Hk _ _ Hc) as (e & He & Hsc). simpl. rewrite He.
  apply map_eq. intros k. rewrite lookup_view. simpl.
  destruct (decide (c = k)) as [<-|Hne].
  - rewrite !lookup_insert_eq. simpl. by rewrite lookup_alter_eq, He.
  - rewrite !lookup_insert_ne by done. rewrite lookup_view.
    destruct (urlStorage s !! k) as [r'|] eqn:Hk'; [|done].
    simpl. apply lookup_alter_ne. intros ->.
    apply Hne. by apply (keyed_separated s c k r').
Qed.

Lemma elem_of_ref_collectExpired now (objs : gmap ref UrlEntry)
    (l : list (string * ref)) k :
  k ∈ collectExpired now objs l <->
  exists r e, (k, r) ∈ l /\ objs !! r = Some e
              /\ date_lt (expiresAt e) (Some now) = true.
Proof.
  induction l as [|[k' r'] l IH]; simpl.
  - split; [intros H; by apply elem_of_nil in H
           | intros (r & e & H & _); by apply elem_of_nil in H].
  - assert (k ∈ collectExpired now objs l ->
            exists r e, (k, r) ∈ (k', r') :: l /\ objs !! r = Some e
                        /\ date_lt (expiresAt e) (Some now) = true) as Htl.
    { intros (r & e & Hin & H)%IH. exists r, e.
      split; [by apply elem_of_cons; right | done]. }
    destruct (objs !! r') as [e'|] eqn:Hr';
      [destruct (date_lt (expiresAt e') (Some now)) eqn:E|].
    + rewrite elem_of_cons. split.
      * intros [-> | Hin]; [|auto].
        exists r', e'. split; [by apply elem_of_cons; left | done].
      * intros (r & e & [Heq | Hin]%elem_of_cons & H);
          [left; congruence | right; apply IH; eauto].
    + split; [done|].
      intros (r & e & [Heq | Hin]%elem_of_cons & He & Hlt);
        [congruence | apply IH; eauto].
    + split; [done|].
      intros (r & e & [Heq | Hin]%elem_of_cons & He & Hlt);
        [congruence | apply IH; eauto].
Qed.

Lemma view_cleanupExpiredUrls s now :
  view (fst (cleanupExpiredUrls now s))
  = fst (UrlService.cleanupExpiredUrls now (view s)).
Proof.
  apply map_eq. intros k. rewrite lookup_cleanup, !lookup_view.
  unfold cleanupExpiredUrls. simpl. rewrite lookup_deleteAll.
  destruct (decide (k ∈ _)) as [Hin|Hnin].
  - apply elem_of_ref_collectExpired in Hin as (r & e & Hin & He & Hlt).
    apply elem_of_map_to_list in Hin. rewrite Hin. simpl. by rewrite He, Hlt.
  - destruct (urlStorage s !! k) as [r|] eqn:Hr; [|done]. simpl.
    destruct (objects s !! r) as [e|] eqn:He; [|done].
    destruct (date_lt (expiresAt e) (Some now)) eqn:Hlt; [|done].
    exfalso. apply Hnin. apply elem_of_ref_collectExpired.
    exists r, e. split; [by apply elem_of_map_to_list | done].
Qed.

Lemma keyed_ref_storeUrl s r e :
  objects s !! r = Some e -> keyed s -> keyed (storeUrl r s).
Proof.
  intros Hr Hk k r'. unfold storeUrl. rewrite Hr. simpl.
  destruct (decide (shortcode e = k)) as [<-|Hne].
  - rewrite lookup_insert_eq. intros [= <-]. eauto.
  - rewrite lookup_insert_ne by done. apply Hk.
Qed.

Lemma keyed_ref_recordClick s c ev :
  keyed s -> keyed (recordClick c ev s).
Proof.
  intros Hk k r'. unfold recordClick.
  destruct (urlStorage s !! c) as [r|] eqn:Hc; [|apply Hk]. simpl.
  intros Hk'.
  assert (urlStorage s !! k = Some r') as Hold.
  { destruct (decide (c = k)) as [<-|Hne].
    - rewrite lookup_insert_eq in Hk'. congruence.
    - by rewrite lookup_insert_ne in Hk' by done. }
  destruct (Hk _ _ Hold) as (e & He & Hsc).
  destruct (decide (r = r')) as [<-|Hne].
  - exists (push_click ev e). by rewrite lookup_alter_eq, He.
  - exists e. by rewrite lookup_alter_ne.
Qed.

Lemma keyed_ref_cleanupExpiredUrls s now :
  keyed s -> keyed (fst (cleanupExpiredUrls now s)).
Proof.
  intros Hk k r. unfold cleanupExpiredUrls. simpl.
  rewrite lookup_deleteAll. destruct (decide (k ∈ _)); [done | apply Hk].
Qed.

Lemma NoDup_ref_collectExpired now (objs : gmap ref UrlEntry)
    (l : list (string * ref)) :
  NoDup (l.*1) -> NoDup (collectExpired now objs l).
Proof.
  induction l as [|[k r] l IH]; simpl; [constructor|].
  intros [Hk Hnd]%NoDup_cons.
  destruct (objs !! r) as [e|]; [|auto].
  destruct (date_lt (expiresAt e) (Some now)); [|auto].
  apply NoDup_cons. split; [|auto].
  intros (r' & e' & Hin & _)%elem_of_ref_collectExpired.
  apply Hk. apply list_elem_of_fmap. by exists (k, r').
Qed.

Lemma size_view s : keyed s -> size (view s) = size (urlStorage s).
Proof.
  intros Hk. rewrite <- !size_dom. f_equal. apply set_eq. intros k.
  rewrite !elem_of_dom, lookup_view. split.
  - intros [e He]. destruct (urlStorage s !! k); [eauto | done].
  - intros [r Hr]. rewrite Hr. simpl.
    destruct (Hk _ _ Hr) as (e & -> & _). eauto.
Qed.

(** The count returned is the same on both sides. *)
Lemma count_cleanupExpiredUrls s now :
  keyed s ->
  snd (cleanupExpiredUrls now s)
  = snd (UrlService.cleanupExpiredUrls now (view s)).
Proof.
  intros Hk.
  pose proof (size_view _ (keyed_ref_cleanupExpiredUrls s now Hk)) as Hafter.
  rewrite view_cleanupExpiredUrls in Hafter.
  pose proof (size_view s Hk) as Hbefore.
  assert (size (urlStorage s)
          = (size (urlStorage (fst (cleanupExpiredUrls now s)))
             + snd (cleanupExpiredUrls now s))%nat) as Href.
  { unfold cleanupExpiredUrls. simpl. apply size_deleteAll.
    - apply NoDup_ref_collectExpired, NoDup_fst_map_to_list.
    - intros k (r & e & Hin%elem_of_map_to_list & _)%elem_of_ref_collectExpired.
      eauto. }
  assert (size (view s)
          = (size (fst (UrlService.cleanupExpiredUrls now (view s)))
             + snd (UrlService.cleanupExpiredUrls now (view s)))%nat) as Hval.
  { unfold UrlService.cleanupExpiredUrls. simpl. apply size_deleteAll.
    - apply NoDup_collectExpired, NoDup_fst_map_to_list.
    - intros k (e & He & _)%elem_of_expired. eauto. }
  lia.
Qed.

End Refinement.

(** C1 (as stated, refuted): storing an entry under a shortcode that is
    already present does not fail and does not leave the registry
    unchanged: the existing entry is replaced. *)
Lemma storeUrl_replaces_existing :
  shortcodeExists (shortcode entry_b) (storeUrl entry_a ∅) = true
  /\ storeUrl entry_b (storeUrl entry_a ∅) <> storeUrl entry_a ∅
  /\ getUrl "abcd" (storeUrl entry_a ∅) = Some entry_a
  /\ getUrl "abcd" (storeUrl entry_b (storeUrl entry_a ∅)) = Some entry_b.
Proof.
  split; [reflexivity|]. split; [|split; reflexivity].
  intros Heq.
  assert (getUrl "abcd" (storeUrl entry_b (storeUrl entry_a ∅))
          = getUrl "abcd" (storeUrl entry_a ∅)) as H by (by rewrite Heq).
  vm_compute in H. discriminate H.
Qed.

(** C1 (amended): [storeUrl] makes no existence check and has no failure
    outcome.  It files [e] under [e.shortcode], replacing whatever was
    filed there, and leaves every other key as it was; when no entry
    with that shortcode was present, [e] is added and the registry grows
    by one.  The existence check is the separate [shortcodeExists], true
    exactly when an entry is filed under the shortcode. *)
Theorem storeUrl_sets_key (e : UrlEntry) (m : registry) :
  getUrl (shortcode e) (storeUrl e m) = Some e
  /\ (forall k, k <> shortcode e -> getUrl k (storeUrl e m) = getUrl k m)
  /\ (shortcodeExists (shortcode e) m = true <-> is_Some (getUrl (shortcode e) m))
  /\ (shortcodeExists (shortcode e) m = false ->
      size (storeUrl e m) = S (size m) /\ m ⊆ storeUrl e m).
Proof.
  unfold getUrl, storeUrl, shortcodeExists.
  split; [apply lookup_insert_eq|].
  split; [intros k Hk; by apply lookup_insert_ne|].
  split; [apply has_true|].
  intros Hfree%has_false. split.
  - by apply map_size_insert_None.
  - by apply insert_subseteq.
Qed.

Lemma storeUrl_sets_key_witness :
  shortcodeExists (shortcode entry_c) (storeUrl entry_a ∅) = false
  /\ size (storeUrl entry_c (storeUrl entry_a ∅)) = S (size (storeUrl entry_a ∅)).
Proof.
  split; [reflexivity|].
  apply (storeUrl_sets_key entry_c (storeUrl entry_a ∅)). reflexivity.
Defined.

(** C2 (as stated, refuted): with no sweep in between, [getUrl] on a code
    whose [expiresAt] lies before the current instant still returns the
    stored entry. *)
Lemma getUrl_returns_expired_entry :
  date_lt (expiresAt entry_a) (Some 60001%Z) = true
  /\ getUrl "abcd" (storeUrl entry_a ∅) = Some entry_a.
Proof. split; reflexivity. Qed.

(** C2 (amended): [getUrl] makes no expiry check; an expired code is
    reported as not found once a sweep has run after its expiry: after
    [cleanupExpiredUrls] at the instant [now], [getUrl] yields nothing for
    every code whose entry had [expiresAt] before [now]. *)
Theorem getUrl_expired_after_cleanup (now : Z) (m : registry) (c : string)
    (e : UrlEntry) :
  getUrl c m = Some e ->
  date_lt (expiresAt e) (Some now) = true ->
  getUrl c (fst (cleanupExpiredUrls now m)) = None.
Proof.
  unfold getUrl. intros Hc Hlt. by rewrite lookup_cleanup, Hc, Hlt.
Qed.

Lemma getUrl_expired_after_cleanup_witness :
  getUrl "abcd" (storeUrl entry_a ∅) = Some entry_a
  /\ date_lt (expiresAt entry_a) (Some 60001%Z) = true
  /\ getUrl "abcd" (fst (cleanupExpiredUrls 60001 (storeUrl entry_a ∅))) = None.
Proof.
  split; [reflexivity|]. split; [reflexivity|].
  apply (getUrl_expired_after_cleanup 60001 (storeUrl entry_a ∅) "abcd" entry_a);
    reflexivity.
Defined.

(** C3: the uniqueness invariant (every entry is filed under its own
    shortcode, and at most one stored entry carries a given shortcode,
    expired or not) holds of the empty registry and is preserved by
    [storeUrl], [recordClick] and [cleanupExpiredUrls], hence by every run
    of these operations. *)
Theorem registry_inv_preserved :
  registry_inv ∅
  /\ (forall e m, registry_inv m -> registry_inv (storeUrl e m))
  /\ (forall c ev m, registry_inv m -> registry_inv (recordClick c ev m))
  /\ (forall now m, registry_inv m -> registry_inv (fst (cleanupExpiredUrls now m)))
  /\ (forall calls m, registry_inv m -> registry_inv (run calls m)).
Proof.
  assert (forall m : registry, keyed_by_shortcode m -> registry_inv m) as Hinv
    by (intros m Hk; split; [done | by apply keyed_unique]).
  split; [|split; [|split; [|split]]].
  - apply Hinv. intros k e H. by rewrite lookup_empty in H.
  - intros e m [Hk _]. by apply Hinv, keyed_storeUrl.
  - intros c ev m [Hk _]. by apply Hinv, keyed_recordClick.
  - intros now m [Hk _]. by apply Hinv, keyed_cleanup.
  - intros calls m [Hk _]. by apply Hinv, keyed_run.
Qed.

Lemma registry_inv_preserved_witness :
  registry_inv ∅
  /\ registry_inv
       (run [CallStore entry_a; CallClick "abcd" click_1; CallStore entry_b;
             CallStore entry_c; CallCleanup 60001] ∅).
Proof.
  split; [apply registry_inv_preserved|].
  apply registry_inv_preserved. apply registry_inv_preserved.
Defined.

(** C4: [cleanupExpiredUrls] at the instant [now] removes exactly the
    entries whose [expiresAt] is strictly earlier than [now], keeps every
    other entry as it was, adds nothing, and returns the number of entries
    it removed. *)
Theorem cleanupExpiredUrls_removes_expired (now : Z) (m : registry) :
  let m' := fst (cleanupExpiredUrls now m) in
  let count := snd (cleanupExpiredUrls now m) in
  (forall k e, getUrl k m = Some e ->
     date_lt (expiresAt e) (Some now) = true -> getUrl k m' = None)
  /\ (forall k e, getUrl k m = Some e ->
     date_lt (expiresAt e) (Some now) = false -> getUrl k m' = Some e)
  /\ (forall k, getUrl k m = None -> getUrl k m' = None)
  /\ size m = (size m' + count)%nat.
Proof.
  unfold getUrl. cbv zeta. split; [|split; [|split]].
  - intros k e Hk Hlt. by rewrite lookup_cleanup, Hk, Hlt.
  - intros k e Hk Hlt. by rewrite lookup_cleanup, Hk, Hlt.
  - intros k Hk. by rewrite lookup_cleanup, Hk.
  - unfold cleanupExpiredUrls. simpl. apply size_deleteAll.
    + apply NoDup_collectExpired, NoDup_fst_map_to_list.
    + intros k (e & He & _)%elem_of_expired. eauto.
Qed.

Lemma cleanupExpiredUrls_removes_expired_witness :
  getUrl "wxyz" (storeUrl entry_c (storeUrl entry_a ∅)) = Some entry_c
  /\ date_lt (expiresAt entry_c) (Some 60001%Z) = false
  /\ getUrl "wxyz"
       (fst (cleanupExpiredUrls 60001 (storeUrl entry_c (storeUrl entry_a ∅))))
     = Some entry_c.
Proof.
  split; [reflexivity|]. split; [reflexivity|].
  apply (cleanupExpiredUrls_removes_expired 60001
           (storeUrl entry_c (storeUrl entry_a ∅))); reflexivity.
Defined.

(** C5: [recordClick] on a code with no entry leaves the registry as it
    is; on a code with an entry it appends the click as the last element
    of that entry's [clicks], keeping the earlier clicks in order and all
    other fields, and it touches no other entry. *)
Theorem recordClick_appends (c : string) (ev : ClickEvent) (m : registry) :
  (getUrl c m = None -> recordClick c ev m = m)
  /\ (forall e, getUrl c m = Some e ->
        getUrl c (recordClick c ev m)
        = Some (mkEntry (shortcode e) (originalUrl e) (createdAt e)
                        (expiresAt e) (clicks e ++ [ev])))
  /\ (forall k, k <> c -> getUrl k (recordClick c ev m) = getUrl k m).
Proof.
  unfold getUrl, recordClick. split; [|split].
  - by intros ->.
  - intros e ->. by rewrite lookup_insert_eq.
  - intros k Hk. destruct (m !! c); [by apply lookup_insert_ne | done].
Qed.

Lemma recordClick_appends_witness :
  getUrl "abcd" (storeUrl entry_a ∅) = Some entry_a
  /\ getUrl "abcd" (recordClick "abcd" click_1 (storeUrl entry_a ∅))
     = Some (mkEntry "abcd" "https://example.com/a" (Some 0%Z) (Some 60000%Z)
                     [click_1]).
Proof.
  split; [reflexivity|].
  exact (proj1 (proj2 (recordClick_appends "abcd" click_1 (storeUrl entry_a ∅)))
           entry_a eq_refl).
Defined.

Section GeneratorFacts.

Lemma wellformed_of_valid (s : string) :
  validateShortcode (Some s) = Valid tt -> wellformed_shortcode s = true.
Proof.
  unfold validateShortcode, wellformed_shortcode.
  destruct s as [|a s]; [discriminate|].
  destruct (_ || _) eqn:Elen; [discriminate|].
  destruct (test_plus is_alnum (String a s)) eqn:Ealnum; [|discriminate].
  intros _. apply orb_false_iff in Elen as [H4 H10].
  apply Nat.ltb_ge in H4, H10.
  rewrite test_plus_all_chars in Ealnum by discriminate. rewrite Ealnum.
  rewrite andb_true_r. apply andb_true_iff.
  split; by apply Nat.leb_le.
Qed.

Lemma generateShortcode_sound (draws : list string) (m : registry) (c : string) :
  generateShortcode draws m = Some c ->
  c ∈ draws /\ shortcodeExists c m = false.
Proof.
  unfold shortcodeExists.
  induction draws as [|d draws IH]; simpl; [discriminate|].
  destruct (has m d) eqn:E.
  - intros H. destruct (IH H) as [Hin Hfree]. split; [by apply elem_of_cons; right | done].
  - intros [= <-]. split; [by apply elem_of_cons; left | done].
Qed.

Lemma generateShortcode_returns (draws : list string) (m : registry) :
  (exists d, d ∈ draws /\ shortcodeExists d m = false) ->
  exists c, generateShortcode draws m = Some c.
Proof.
  unfold shortcodeExists.
  induction draws as [|d draws IH]; simpl.
  - intros (d & H & _). by apply elem_of_nil in H.
  - intros (d' & Hin & Hfree). destruct (has m d) eqn:E; [|eauto].
    apply IH. exists d'. split; [|done].
    apply elem_of_cons in Hin as [->|Hin]; [congruence | done].
Qed.

End GeneratorFacts.

(** C7 (as stated, refuted): an entry can be stored under a shortcode
    that is not 4 to 10 alphanumeric characters, since [storeUrl] checks
    nothing; and a result of [nanoid(6)] containing [_] or [-] is
    returned by [generateShortcode] as it is. *)
Lemma stored_shortcode_not_alphanumeric :
  (getUrl "x-" (storeUrl entry_odd ∅) = Some entry_odd
   /\ wellformed_shortcode "x-" = false)
  /\ (nanoid6 "a_-bcd" = true
      /\ generateShortcode ["a_-bcd"] ∅ = Some "a_-bcd"
      /\ wellformed_shortcode "a_-bcd" = false).
Proof. repeat split; reflexivity. Qed.

(** C7 (amended): every code produced by [generateShortcode] is one of the
    [nanoid(6)] results, so a string of exactly 6 characters among the
    letters, the digits, [_] and [-], and it is not a key of the registry;
    the generator returns as soon as one draw is free.  Every custom
    code accepted by [validateShortcode] is 4 to 10 alphanumeric
    characters. *)
Theorem generateShortcode_nanoid (draws : list string) (m : registry) :
  (forall d, d ∈ draws -> nanoid6 d = true) ->
  (forall c, generateShortcode draws m = Some c ->
     String.length c = 6%nat /\ all_chars is_nanoid_char c = true
     /\ shortcodeExists c m = false)
  /\ ((exists d, d ∈ draws /\ shortcodeExists d m = false) ->
      exists c, generateShortcode draws m = Some c)
  /\ (forall s, validateShortcode (Some s) = Valid tt ->
      wellformed_shortcode s = true).
Proof.
  intros Hdraws. split; [|split].
  - intros c [Hin Hfree]%generateShortcode_sound.
    specialize (Hdraws c Hin). unfold nanoid6 in Hdraws.
    apply andb_true_iff in Hdraws as [Hlen Hchars].
    apply Nat.eqb_eq in Hlen. done.
  - apply generateShortcode_returns.
  - apply wellformed_of_valid.
Qed.

Lemma generateShortcode_nanoid_witness :
  (forall d, d ∈ ["abcd12"; "a_-bcd"] -> nanoid6 d = true)
  /\ generateShortcode ["abcd12"; "a_-bcd"]
       (storeUrl (mkEntry "abcd12" "https://example.com/a" (Some 0%Z)
                          (Some 60000%Z) []) ∅) = Some "a_-bcd"
  /\ String.length "a_-bcd" = 6%nat.
Proof.
  assert (forall d, d ∈ ["abcd12"; "a_-bcd"] -> nanoid6 d = true) as Hd.
  { intros d Hin. apply elem_of_cons in Hin as [->|Hin]; [reflexivity|].
    apply elem_of_cons in Hin as [->|Hin]; [reflexivity|].
    by apply elem_of_nil in Hin. }
  split; [exact Hd|]. split; [reflexivity|].
  exact (proj1 (proj1 (generateShortcode_nanoid ["abcd12"; "a_-bcd"]
           (storeUrl (mkEntry "abcd12" "https://example.com/a" (Some 0%Z)
                              (Some 60000%Z) []) ∅) Hd) "a_-bcd" eq_refl)).
Defined.

Section RoundTrip.

Variable e : UrlEntry.

Lemma same_mapping_step (m : registry) (cl : call) :
  keeps e cl ->
  (exists e', getUrl (shortcode e) m = Some e' /\ same_mapping e e') ->
  exists e', getUrl (shortcode e) (step m cl) = Some e' /\ same_mapping e e'.
Proof.
  unfold getUrl. intros Hkeep (e' & Hget & Hsame).
  destruct cl as [e2|c ev|now]; cbn [step keeps] in *.
  - exists e'. split; [|done]. unfold storeUrl. by rewrite lookup_insert_ne.
  - unfold recordClick. destruct (m !! c) as [ec|] eqn:Hc; [|eauto].
    destruct (decide (c = shortcode e)) as [->|Hne].
    + rewrite lookup_insert_eq. eexists; split; [done|].
      assert (ec = e') as -> by congruence. exact Hsame.
    + rewrite lookup_insert_ne by done. eauto.
  - exists e'. split; [|done]. rewrite lookup_cleanup, Hget.
    destruct Hsame as (_ & _ & _ & ->). by rewrite Hkeep.
Qed.

Lemma same_mapping_run (calls : list call) (m : registry) :
  Forall (keeps e) calls ->
  (exists e', getUrl (shortcode e) m = Some e' /\ same_mapping e e') ->
  exists e', getUrl (shortcode e) (run calls m) = Some e' /\ same_mapping e e'.
Proof.
  unfold run. intros Hall. revert m.
  induction Hall as [|cl calls Hcl Hall IH]; intros m Hm; simpl; [done|].
  apply IH. by apply same_mapping_step.
Qed.

End RoundTrip.

(** C8: round trip.  Right after [storeUrl] of an entry mapping code [c]
    to the URL [U], [getUrl c] returns that entry, so the lookup yields
    exactly [U]; and it still yields [U] after any run of later calls in
    which no [storeUrl] reuses [c] and no sweep happens at an instant
    after the entry's expiry. *)
Theorem storeUrl_getUrl_round_trip (U c : string) (e : UrlEntry)
    (m : registry) (calls : list call) :
  shortcode e = c -> originalUrl e = U ->
  getUrl c (storeUrl e m) = Some e
  /\ (Forall (keeps e) calls ->
      exists e', getUrl c (run calls (storeUrl e m)) = Some e'
                 /\ originalUrl e' = U).
Proof.
  intros <- <-. split.
  - apply lookup_insert_eq.
  - intros Hall.
    destruct (same_mapping_run e calls (storeUrl e m) Hall) as (e' & Hget & Hsame).
    + exists e. split; [apply lookup_insert_eq | by repeat split].
    + exists e'. split; [done | apply Hsame].
Qed.

Lemma storeUrl_getUrl_round_trip_witness :
  shortcode entry_a = "abcd" /\ originalUrl entry_a = "https://example.com/a"
  /\ Forall (keeps entry_a)
       [CallClick "abcd" click_1; CallStore entry_c; CallCleanup 60000]
  /\ exists e', getUrl "abcd"
                  (run [CallClick "abcd" click_1; CallStore entry_c;
                        CallCleanup 60000] (storeUrl entry_a ∅)) = Some e'
                /\ originalUrl e' = "https://example.com/a".
Proof.
  assert (Forall (keeps entry_a)
            [CallClick "abcd" click_1; CallStore entry_c; CallCleanup 60000]) as Hk.
  { repeat constructor. simpl. discriminate. }
  split; [reflexivity|]. split; [reflexivity|]. split; [exact Hk|].
  exact (proj2 (storeUrl_getUrl_round_trip "https://example.com/a" "abcd" entry_a ∅
                  [CallClick "abcd" click_1; CallStore entry_c; CallCleanup 60000]
                  eq_refl eq_refl) Hk).
Defined.

(* ===================================================================== *)
(** ** Further properties of the validators                               *)
(* ===================================================================== *)

Section TrimFacts.

Lemma trimStart_clean (s : string) : starts_clean (trimStart s).
Proof.
  induction s as [|a s IH]; simpl; [exact I|].
  destruct (is_whitespace a) eqn:E; [exact IH | exact E].
Qed.

Lemma trimStart_id (s : string) : starts_clean s -> trimStart s = s.
Proof. destruct s as [|a s]; simpl; [reflexivity | now intros ->]. Qed.

Lemma trimEnd_clean (s : string) : starts_clean s -> starts_clean (trimEnd s).
Proof.
  destruct s as [|a s]; simpl; [exact id|]. intros Ha.
  destruct (trimEnd s); [rewrite Ha|]; exact Ha.
Qed.

Lemma trimEnd_idempotent (s : string) : trimEnd (trimEnd s) = trimEnd s.
Proof.
  induction s as [|a s IH]; simpl; [reflexivity|].
  destruct (trimEnd s) as [|b t] eqn:E.
  - destruct (is_whitespace a) eqn:Ea; simpl; [reflexivity | now rewrite Ea].
  - change (trimEnd (String a (String b t))) with
      (match trimEnd (String b t) with
       | EmptyString => if is_whitespace a then EmptyString else String a EmptyString
       | t' => String a t'
       end).
    now rewrite IH.
Qed.

Lemma trim_idempotent (s : string) : trim (trim s) = trim s.
Proof.
  unfold trim.
  rewrite (trimStart_id (trimEnd (trimStart s)))
    by apply trimEnd_clean, trimStart_clean.
  apply trimEnd_idempotent.
Qed.

End TrimFacts.

Section ValidatorFacts.

Lemma includes_In (arr : list string) (s : string) :
  includes arr s = true <-> In s arr.
Proof.
  unfold includes. rewrite existsb_exists. split.
  - intros (w & Hin & Heq). apply String.eqb_eq in Heq. now subst.
  - intros Hin. exists s. split; [exact Hin | apply String.eqb_refl].
Qed.

(** A character that [toLowerCase] turns into a lower-case ASCII letter is
    an ASCII letter. *)
Lemma lower_char_letter (a : ascii) :
  is_lower (lower_char a) = true -> is_lower a || is_upper a = true.
Proof.
  destruct a as [b0 b1 b2 b3 b4 b5 b6 b7].
  destruct b0, b1, b2, b3, b4, b5, b6, b7; vm_compute; intros H;
    first [reflexivity | discriminate H].
Qed.

Lemma toLowerCase_letters (s : string) :
  all_chars is_lower (toLowerCase s) = true -> all_chars is_alnum s = true.
Proof.
  induction s as [|a s IH]; simpl; [reflexivity|].
  intros [Ha Hs]%andb_true_iff. apply andb_true_iff. split; [|auto].
  unfold is_alnum. now rewrite (lower_char_letter a Ha).
Qed.

End ValidatorFacts.

(** X1: [validateShortcode] accepts exactly the present codes of 4 to 10
    characters, all alphanumeric, whose lower-case form is not a reserved
    word. *)
Theorem validateShortcode_valid_iff (shortcode : option string) :
  validateShortcode shortcode = Valid tt <->
  exists c, shortcode = Some c
            /\ (4 <= String.length c <= 10)%nat
            /\ all_chars is_alnum c = true
            /\ ~ In (toLowerCase c) reservedWords.
Proof.
  split.
  - destruct shortcode as [[|a c]|]; [discriminate | | discriminate].
    unfold validateShortcode.
    destruct (_ || _) eqn:Elen; [discriminate|].
    rewrite test_plus_all_chars by discriminate.
    destruct (all_chars is_alnum (String a c)) eqn:Ealnum; [|discriminate].
    simpl negb. cbv iota.
    destruct (includes reservedWords _) eqn:Eres; [discriminate|]. intros _.
    exists (String a c). split; [reflexivity|].
    apply orb_false_iff in Elen as [H4 H10].
    apply Nat.ltb_ge in H4, H10. split; [lia|]. split; [exact Ealnum|].
    intros Hin%includes_In. congruence.
  - intros (c & -> & Hlen & Halnum & Hres).
    destruct c as [|a c]; [simpl in Hlen; lia|].
    unfold validateShortcode.
    replace (_ || _) with false
      by (symmetry; apply orb_false_iff; split; apply Nat.ltb_ge; lia).
    rewrite test_plus_all_chars by discriminate. rewrite Halnum. simpl negb.
    destruct (includes reservedWords _) eqn:Eres; [|reflexivity].
    apply includes_In in Eres. contradiction.
Qed.

(** X2: the reserved-word refusal is case-insensitive, and the checks run
    in a fixed order.  The message about reserved words is returned
    exactly for the spellings, in any mix of cases, of [admin],
    [shorturls], [health] and [stats]; the spellings of [api] and [www]
    are refused for their length. *)
Theorem validateShortcode_reserved_iff (c : string) :
  (validateShortcode (Some c)
   = Invalid "Shortcode uses a reserved word. Please choose a different shortcode."
   <-> In (toLowerCase c) ["admin"; "shorturls"; "health"; "stats"])
  /\ (In (toLowerCase c) ["api"; "www"] ->
      validateShortcode (Some c)
      = Invalid "Shortcode must be between 4 and 10 characters long").
Proof.
  split; [split|].
  - destruct c as [|a c]; [discriminate|]. unfold validateShortcode.
    destruct (_ || _) eqn:Elen; [discriminate|].
    destruct (negb _); [discriminate|].
    destruct (includes reservedWords _) eqn:Eres; [|discriminate]. intros _.
    apply orb_false_iff in Elen as [H4 H10]. apply Nat.ltb_ge in H4, H10.
    apply includes_In in Eres.
    pose proof (length_toLowerCase (String a c)) as Hl.
    destruct Eres as [E|[E|[E|[E|[E|[E|[]]]]]]]; rewrite <- E in Hl |- *;
      simpl in Hl, H4, H10 |- *; first [lia | tauto].
  - intros Hin.
    assert (all_chars is_alnum c = true) as Halnum.
    { apply toLowerCase_letters.
      simpl in Hin. destruct Hin as [E|[E|[E|[E|[]]]]]; rewrite <- E; reflexivity. }
    assert ((4 <= String.length c <= 10)%nat) as Hlen.
    { rewrite <- length_toLowerCase.
      simpl in Hin. destruct Hin as [E|[E|[E|[E|[]]]]]; rewrite <- E; simpl; lia. }
    assert (includes reservedWords (toLowerCase c) = true) as Hres.
    { apply includes_In. simpl in Hin. simpl. tauto. }
    destruct c as [|a c]; [simpl in Hlen; lia|]. unfold validateShortcode.
    replace (_ || _) with false
      by (symmetry; apply orb_false_iff; split; apply Nat.ltb_ge; lia).
    rewrite test_plus_all_chars by discriminate. rewrite Halnum, Hres. reflexivity.
  - intros Hin.
    assert (String.length c = 3%nat) as Hlen.
    { rewrite <- length_toLowerCase.
      simpl in Hin. destruct Hin as [E|[E|[]]]; rewrite <- E; reflexivity. }
    destruct c as [|a c]; [discriminate Hlen|]. unfold validateShortcode.
    now rewrite Hlen.
Qed.

Lemma validateShortcode_reserved_iff_witness :
  In (toLowerCase "HeAlTh") ["admin"; "shorturls"; "health"; "stats"]
  /\ validateShortcode (Some "HeAlTh")
     = Invalid "Shortcode uses a reserved word. Please choose a different shortcode.".
Proof.
  assert (In (toLowerCase "HeAlTh") ["admin"; "shorturls"; "health"; "stats"]) as H
    by (simpl; auto).
  split; [exact H|].
  exact (proj2 (proj1 (validateShortcode_reserved_iff "HeAlTh")) H).
Defined.

(** X3: [validateValidity] succeeds in two cases only: the value is
    absent, and the result is the default 30; or it is an integer between
    1 and 43200, and the result is that integer.  So an accepted validity
    is always between 1 and 43200. *)
Theorem validateValidity_valid_iff (validity : jsvalue) (n : Z) :
  (validateValidity validity = Valid n <->
   ((validity = JUndefined \/ validity = JNull) /\ n = 30%Z)
   \/ (validity = JNumber n /\ (1 <= n <= 43200)%Z))
  /\ (validateValidity validity = Valid n -> (1 <= n <= 43200)%Z).
Proof.
  assert (validateValidity validity = Valid n <->
          ((validity = JUndefined \/ validity = JNull) /\ n = 30%Z)
          \/ (validity = JNumber n /\ (1 <= n <= 43200)%Z)) as Hiff.
  { split.
    - destruct validity as [| |z| |]; simpl; try discriminate.
      + intros [= <-]. left. auto.
      + intros [= <-]. left. auto.
      + destruct (_ || _) eqn:E; [discriminate|]. intros [= <-].
        apply orb_false_iff in E as [H1 H2]. apply Z.ltb_ge in H1, H2.
        right. split; [reflexivity | lia].
    - intros [[[-> | ->] ->] | [-> Hn]]; simpl; try reflexivity.
      replace (_ || _) with false; [reflexivity|].
      symmetry. apply orb_false_iff. split; apply Z.ltb_ge; lia. }
  split; [exact Hiff|].
  intros [[_ ->] | [_ Hn]]%Hiff; lia.
Qed.

Lemma validateValidity_valid_iff_witness :
  validateValidity (JNumber 43200) = Valid 43200%Z /\ (1 <= 43200 <= 43200)%Z.
Proof.
  split; [reflexivity|].
  exact (proj2 (validateValidity_valid_iff (JNumber 43200) 43200) eq_refl).
Defined.

Lemma validateUrl_accepts_iff (URL : string -> option URLObject)
    (url : option string) (u : string) :
  validateUrl URL url = Valid u <->
  exists raw urlObj,
    url = Some raw /\ raw <> "" /\ u = trim raw
    /\ includes_char " " u = false
    /\ URL u = Some urlObj
    /\ (protocol urlObj = "http:" \/ protocol urlObj = "https:")
    /\ hostname_accepted (hostname urlObj) = true.
Proof.
  unfold hostname_accepted. split.
  - destruct url as [[|a raw]|]; [discriminate | | discriminate].
    unfold validateUrl. cbv zeta.
    destruct (includes_char " " _) eqn:Hsp; [discriminate|].
    destruct (URL _) as [urlObj|] eqn:Hparse; [|discriminate].
    destruct (includes _ (protocol urlObj)) eqn:Hproto; [|discriminate].
    simpl negb. cbv iota.
    destruct (String.eqb (hostname urlObj) "") eqn:Hempty; [discriminate|].
    destruct (test_plus is_host_char _) eqn:Hchars; [|discriminate].
    destruct (includes_char "." _) eqn:Hdot; [|discriminate].
    simpl negb. simpl orb. cbv iota.
    destruct (startsWith_char "-" _) eqn:H1; [discriminate|].
    destruct (endsWith_char "-" _) eqn:H2; [discriminate|].
    destruct (startsWith_char "." _) eqn:H3; [discriminate|].
    destruct (endsWith_char "." _) eqn:H4; [discriminate|].
    simpl orb. cbv iota. intros [= <-].
    exists (String a raw), urlObj. rewrite Hsp, Hparse.
    repeat split; try reflexivity; try discriminate.
    + apply includes_In in Hproto. simpl in Hproto.
      destruct Hproto as [<-|[<-|[]]]; auto.
    + now rewrite Hchars, Hdot, H1, H2, H3, H4.
  - intros (raw & urlObj & -> & Hne & -> & Hsp & Hparse & Hproto & Hhost).
    destruct raw as [|a raw]; [congruence|].
    unfold validateUrl. cbv zeta. rewrite Hsp, Hparse.
    repeat (apply andb_true_iff in Hhost as [Hhost ?]).
    repeat match goal with
           | H : negb ?b = true |- _ => apply negb_true_iff in H
           end.
    assert (includes ["http:"; "https:"] (protocol urlObj) = true) as ->
      by (apply includes_In; simpl; destruct Hproto as [-> | ->]; auto).
    assert (String.eqb (hostname urlObj) "" = false) as ->.
    { apply String.eqb_neq. intros E. rewrite E in Hhost. discriminate. }
    repeat match goal with H : _ = _ |- _ => rewrite H end.
    reflexivity.
Qed.


(** X4: whatever the URL parser, [validateUrl] accepts exactly the present,
    non-empty inputs whose trimmed form has no space character, parses,
    has the protocol [http:] or [https:] and a hostname passing all the
    hostname checks; the URL returned is the trimmed input. *)
Theorem validateUrl_valid_iff (URL : string -> option URLObject)
    (url : option string) (u : string) :
  validateUrl URL url = Valid u <->
  exists raw urlObj,
    url = Some raw /\ raw <> "" /\ u = trim raw
    /\ includes_char " " u = false
    /\ URL u = Some urlObj
    /\ (protocol urlObj = "http:" \/ protocol urlObj = "https:")
    /\ hostname_accepted (hostname urlObj) = true.
Proof. apply validateUrl_accepts_iff. Qed.

Lemma validateUrl_valid_iff_witness :
  validateUrl URL_plain (Some "  https://Example.com/a?b=1 ")
  = Valid "https://Example.com/a?b=1".
Proof.
  apply (validateUrl_valid_iff URL_plain).
  exists "  https://Example.com/a?b=1 ", (mkURL "https:" "example.com").
  repeat split; solve [reflexivity | discriminate | right; reflexivity].
Defined.

(** X5: the URL that [validateUrl] returns is a fixed point: validated
    again, it is accepted and returned unchanged.  (The platform's parser
    throws on the empty string, which is the hypothesis.) *)
Theorem validateUrl_normalized_fixpoint (URL : string -> option URLObject)
    (url : option string) (u : string) :
  URL "" = None ->
  validateUrl URL url = Valid u ->
  validateUrl URL (Some u) = Valid u.
Proof.
  intros Hempty H.
  apply validateUrl_accepts_iff in H
    as (raw & urlObj & -> & Hne & -> & Hsp & Hparse & Hproto & Hhost).
  apply validateUrl_accepts_iff. exists (trim raw), urlObj.
  rewrite trim_idempotent.
  repeat split; try assumption.
  intros E. rewrite E in Hparse. congruence.
Qed.

Lemma validateUrl_normalized_fixpoint_witness :
  URL_plain "" = None
  /\ validateUrl URL_plain (Some " https://example.com/a ")
     = Valid "https://example.com/a"
  /\ validateUrl URL_plain (Some "https://example.com/a")
     = Valid "https://example.com/a".
Proof.
  split; [reflexivity|]. split; [reflexivity|].
  apply (validateUrl_normalized_fixpoint URL_plain
           (Some " https://example.com/a ")); reflexivity.
Defined.

(* ===================================================================== *)
(** ** Further properties of the registry                                 *)
(* ===================================================================== *)



(** X7: storing an entry under a code obtained from [generateShortcode]
    replaces nothing: every entry that was in the registry is still
    returned unchanged, the registry grows by one, and the new entry is
    found under the generated code. *)
Theorem generate_then_store (draws : list string) (m : registry) (c : string)
    (e : UrlEntry) :
  generateShortcode draws m = Some c ->
  shortcode e = c ->
  (forall k e', getUrl k m = Some e' -> getUrl k (storeUrl e m) = Some e')
  /\ size (storeUrl e m) = S (size m)
  /\ getUrl c (storeUrl e m) = Some e.
Proof.
  intros [_ Hfree%has_false]%generateShortcode_sound <-.
  unfold getUrl, storeUrl. split; [|split].
  - intros k e' Hk. rewrite lookup_insert_ne; [done|]. congruence.
  - by apply map_size_insert_None.
  - apply lookup_insert_eq.
Qed.

Lemma generate_then_store_witness :
  generateShortcode ["abcd"; "Vx_3-Q"] (storeUrl entry_a ∅) = Some "Vx_3-Q"
  /\ size (storeUrl (mkEntry "Vx_3-Q" "https://example.org/n" (Some 5%Z)
                             (Some 60005%Z) []) (storeUrl entry_a ∅))
     = S (size (storeUrl entry_a ∅)).
Proof.
  split; [reflexivity|].
  apply (generate_then_store ["abcd"; "Vx_3-Q"] (storeUrl entry_a ∅) "Vx_3-Q");
    reflexivity.
Defined.

Section ClickFacts.

Lemma clicks_after_run_from (e : UrlEntry) (calls : list call) :
  Forall (keeps e) calls ->
  forall (m : registry) (e0 : UrlEntry),
    getUrl (shortcode e) m = Some e0 -> expiresAt e0 = expiresAt e ->
    exists e', getUrl (shortcode e) (run calls m) = Some e'
               /\ clicks e' = (clicks e0 ++ clicks_on (shortcode e) calls)%list
               /\ expiresAt e' = expiresAt e.
Proof.
  unfold getUrl, run.
  induction 1 as [|cl calls Hcl Hall IH]; intros m e0 Hget Hexp; simpl.
  - exists e0. by rewrite app_nil_r.
  - destruct cl as [e2|c ev|now]; cbn [step keeps] in *.
    + apply IH; [|done]. unfold storeUrl. by rewrite lookup_insert_ne.
    + unfold recordClick. destruct (String.eqb_spec c (shortcode e)) as [->|Hne].
      * rewrite Hget.
        destruct (IH (<[shortcode e := push_click ev e0]> m) (push_click ev e0))
          as (e' & Hget' & Hclicks & Hexp'); [apply lookup_insert_eq | done |].
        exists e'. split; [done|]. split; [|done].
        rewrite Hclicks. simpl. by rewrite <- app_assoc.
      * apply IH; [|done].
        destruct (m !! c); [by rewrite lookup_insert_ne | done].
    + apply IH; [|done]. by rewrite lookup_cleanup, Hget, Hexp, Hcl.
Qed.

End ClickFacts.

(** X8: no click is lost and none is invented.  After an entry is stored,
    and for as long as no later [storeUrl] reuses its code and no sweep
    runs after its expiry, the entry found under the code carries the
    clicks it was stored with followed by exactly the clicks recorded on
    that code since, in the order of the calls. *)
Theorem clicks_after_run (e : UrlEntry) (m : registry) (calls : list call) :
  Forall (keeps e) calls ->
  exists e', getUrl (shortcode e) (run calls (storeUrl e m)) = Some e'
             /\ clicks e' = (clicks e ++ clicks_on (shortcode e) calls)%list.
Proof.
  intros Hall.
  destruct (clicks_after_run_from e calls Hall (storeUrl e m) e)
    as (e' & Hget & Hclicks & _); [apply lookup_insert_eq | done |].
  eauto.
Qed.

Lemma clicks_after_run_witness :
  Forall (keeps entry_a)
    [CallClick "abcd" click_1; CallStore entry_c; CallClick "wxyz" click_1;
     CallCleanup 60000; CallClick "abcd" click_1]
  /\ exists e', getUrl "abcd"
        (run [CallClick "abcd" click_1; CallStore entry_c;
              CallClick "wxyz" click_1; CallCleanup 60000;
              CallClick "abcd" click_1] (storeUrl entry_a ∅)) = Some e'
      /\ clicks e' = [click_1; click_1].
Proof.
  assert (Forall (keeps entry_a)
    [CallClick "abcd" click_1; CallStore entry_c; CallClick "wxyz" click_1;
     CallCleanup 60000; CallClick "abcd" click_1]) as Hk.
  { repeat constructor. simpl. discriminate. }
  split; [exact Hk|].
  exact (clicks_after_run entry_a ∅ _ Hk).
Defined.

(** X9: [recordClick] never creates or removes an entry: the set of
    shortcodes present, and so the answer of [shortcodeExists] for every
    code and the number of entries, are the same before and after, on a
    known code as on an unknown one. *)
Theorem recordClick_keeps_codes (c : string) (ev : ClickEvent) (m : registry) :
  dom (recordClick c ev m) = dom m
  /\ (forall k, shortcodeExists k (recordClick c ev m) = shortcodeExists k m)
  /\ size (recordClick c ev m) = size m.
Proof.
  assert (dom (recordClick c ev m) = dom m) as Hdom.
  { unfold recordClick. destruct (m !! c) as [e|] eqn:Hc; [|done].
    rewrite dom_insert_L. apply elem_of_dom_2 in Hc.
    apply subseteq_union_1_L. by apply singleton_subseteq_l. }
  split; [done|]. split.
  - intros k. unfold shortcodeExists.
    destruct (has m k) eqn:E.
    + apply has_true. apply elem_of_dom. rewrite Hdom.
      apply elem_of_dom. by apply has_true.
    + apply has_false. apply not_elem_of_dom. rewrite Hdom.
      apply not_elem_of_dom. by apply has_false.
  - by rewrite <- !size_dom, Hdom.
Qed.

Section CleanupFacts.

Implicit Types (m : registry) (k : string) (e : UrlEntry).

Lemma size_cleanup now m :
  size m = (size (fst (cleanupExpiredUrls now m))
            + snd (cleanupExpiredUrls now m))%nat.
Proof.
  unfold cleanupExpiredUrls. simpl. apply size_deleteAll.
  - apply NoDup_collectExpired, NoDup_fst_map_to_list.
  - intros k (e & He & _)%elem_of_expired. eauto.
Qed.

Lemma date_lt_mono (d : timeValue) (now1 now2 : Z) :
  (now1 <= now2)%Z ->
  date_lt d (Some now1) = true -> date_lt d (Some now2) = true.
Proof.
  destruct d as [x|]; simpl; [|done].
  intros Hle H%Z.ltb_lt. apply Z.ltb_lt. lia.
Qed.

Lemma cleanup_unchanged_iff now m :
  fst (cleanupExpiredUrls now m) = m <->
  forall k e, m !! k = Some e -> date_lt (expiresAt e) (Some now) = false.
Proof.
  split.
  - intros Heq k e Hk.
    destruct (date_lt (expiresAt e) (Some now)) eqn:E; [|done].
    assert (fst (cleanupExpiredUrls now m) !! k = None) as Hgone
      by (by rewrite lookup_cleanup, Hk, E).
    rewrite Heq in Hgone. congruence.
  - intros Hnone. apply map_eq. intros k. rewrite lookup_cleanup.
    destruct (m !! k) as [e|] eqn:Hk; [|done]. by rewrite (Hnone k e Hk).
Qed.

End CleanupFacts.

(** X10: sweeping at two instants in a row gives the registry of the later
    sweep alone, and the two counts add up to the count the later sweep
    alone would have returned. *)
Theorem cleanup_then_later_cleanup (now1 now2 : Z) (m : registry) :
  (now1 <= now2)%Z ->
  fst (cleanupExpiredUrls now2 (fst (cleanupExpiredUrls now1 m)))
  = fst (cleanupExpiredUrls now2 m)
  /\ (snd (cleanupExpiredUrls now1 m)
      + snd (cleanupExpiredUrls now2 (fst (cleanupExpiredUrls now1 m))))%nat
     = snd (cleanupExpiredUrls now2 m).
Proof.
  intros Hle.
  assert (fst (cleanupExpiredUrls now2 (fst (cleanupExpiredUrls now1 m)))
          = fst (cleanupExpiredUrls now2 m)) as Heq.
  { apply map_eq. intros k. rewrite !lookup_cleanup.
    destruct (m !! k) as [e|] eqn:Hk; [|done].
    destruct (date_lt (expiresAt e) (Some now1)) eqn:E1; [|done].
    by rewrite (date_lt_mono _ _ _ Hle E1). }
  split; [exact Heq|].
  pose proof (size_cleanup now1 m) as H1.
  pose proof (size_cleanup now2 (fst (cleanupExpiredUrls now1 m))) as H2.
  pose proof (size_cleanup now2 m) as H3.
  rewrite Heq in H2. lia.
Qed.

Lemma cleanup_then_later_cleanup_witness :
  (60001 <= 120001)%Z
  /\ fst (cleanupExpiredUrls 120001
            (fst (cleanupExpiredUrls 60001 (storeUrl entry_c (storeUrl entry_a ∅)))))
     = fst (cleanupExpiredUrls 120001 (storeUrl entry_c (storeUrl entry_a ∅))).
Proof.
  split; [lia|].
  apply (cleanup_then_later_cleanup 60001 120001). lia.
Defined.

(** X11: a sweep at an instant not later than a sweep already made
    removes nothing and returns 0; in particular a second sweep at the
    same instant is a no-op. *)
Theorem cleanup_again_is_noop (now1 now2 : Z) (m : registry) :
  (now2 <= now1)%Z ->
  cleanupExpiredUrls now2 (fst (cleanupExpiredUrls now1 m))
  = (fst (cleanupExpiredUrls now1 m), 0%nat).
Proof.
  intros Hle.
  assert (fst (cleanupExpiredUrls now2 (fst (cleanupExpiredUrls now1 m)))
          = fst (cleanupExpiredUrls now1 m)) as Heq.
  { apply cleanup_unchanged_iff. intros k e. rewrite lookup_cleanup.
    destruct (m !! k) as [e'|]; [|done].
    destruct (date_lt (expiresAt e') (Some now1)) eqn:E1; [done|].
    intros [= ->]. destruct (date_lt (expiresAt e) (Some now2)) eqn:E2; [|done].
    by rewrite (date_lt_mono _ _ _ Hle E2) in E1. }
  pose proof (size_cleanup now2 (fst (cleanupExpiredUrls now1 m))) as Hsz.
  rewrite Heq in Hsz.
  destruct (cleanupExpiredUrls now2 _) as [m' n]. simpl in *.
  f_equal; [done | lia].
Qed.

Lemma cleanup_again_is_noop_witness :
  (60001 <= 60001)%Z
  /\ snd (cleanupExpiredUrls 60001
            (fst (cleanupExpiredUrls 60001 (storeUrl entry_c (storeUrl entry_a ∅)))))
     = 0%nat.
Proof.
  split; [lia|].
  rewrite (cleanup_again_is_noop 60001 60001); [reflexivity | lia].
Defined.

(** X12: the count returned by [cleanupExpiredUrls] is 0 exactly when the
    sweep left the registry as it was, which is exactly when no stored
    entry had its [expiresAt] before the instant of the sweep. *)
Theorem cleanup_zero_iff (now : Z) (m : registry) :
  (snd (cleanupExpiredUrls now m) = 0%nat <-> fst (cleanupExpiredUrls now m) = m)
  /\ (fst (cleanupExpiredUrls now m) = m <->
      forall k e, getUrl k m = Some e -> date_lt (expiresAt e) (Some now) = false).
Proof.
  split; [|apply cleanup_unchanged_iff].
  split.
  - intros Hz. apply cleanup_unchanged_iff. intros k e Hk.
    destruct (date_lt (expiresAt e) (Some now)) eqn:E; [|done].
    assert (k ∈ collectExpired now (map_to_list m)) as Hin
      by (apply elem_of_expired; eauto).
    unfold cleanupExpiredUrls in Hz. simpl in Hz.
    apply nil_length_inv in Hz. rewrite Hz in Hin. by apply elem_of_nil in Hin.
  - intros Heq. pose proof (size_cleanup now m) as Hsz.
    rewrite Heq in Hsz. lia.
Qed.

(** X13: an entry whose [expiresAt] is not a valid date is never swept:
    the comparison with the clock is false at every instant, so the
    entry is still returned after any number of sweeps. *)
Theorem invalid_expiry_never_swept (nows : list Z) (m : registry) (k : string)
    (e : UrlEntry) :
  getUrl k m = Some e -> expiresAt e = None ->
  getUrl k (run (map CallCleanup nows) m) = Some e.
Proof.
  unfold getUrl, run. revert m.
  induction nows as [|now nows IH]; intros m Hk Hexp; cbn [map foldl]; [done|].
  apply IH; [|done]. cbn [step]. by rewrite lookup_cleanup, Hk, Hexp.
Qed.

Lemma invalid_expiry_never_swept_witness :
  getUrl "abcd" (storeUrl (mkEntry "abcd" "https://example.com/a" (Some 0%Z) None [])
                          ∅)
  = Some (mkEntry "abcd" "https://example.com/a" (Some 0%Z) None [])
  /\ getUrl "abcd"
       (run (map CallCleanup [1; 1000000000000]%Z)
            (storeUrl (mkEntry "abcd" "https://example.com/a" (Some 0%Z) None [])
                      ∅))
     = Some (mkEntry "abcd" "https://example.com/a" (Some 0%Z) None []).
Proof.
  split; [reflexivity|].
  apply (invalid_expiry_never_swept [1; 1000000000000]%Z); reflexivity.
Defined.

(* ===================================================================== *)
(** ** The [Map] in insertion order and [getAllUrls]                      *)
(* ===================================================================== *)

Section InOrderFacts.

Import InOrder.

Implicit Types (l : omap) (k c : string) (v e : UrlEntry).

Lemma map_get_contents l k : map_get k l = contents l !! k.
Proof.
  unfold contents. induction l as [|[k' v] l IH]; simpl; [done|].
  destruct (String.eqb_spec k' k) as [->|Hne].
  - by rewrite lookup_insert_eq.
  - by rewrite lookup_insert_ne.
Qed.

Lemma contents_map_set l k v : contents (map_set k v l) = <[k := v]> (contents l).
Proof.
  unfold contents. induction l as [|[k' v'] l IH]; simpl; [done|].
  destruct (String.eqb_spec k' k) as [->|Hne]; simpl.
  - by rewrite insert_insert_eq.
  - rewrite IH. by apply insert_insert_ne.
Qed.

Lemma map_get_None_keys l k : map_get k l = None <-> k ∉ l.*1.
Proof.
  induction l as [|[k' v] l IH]; simpl.
  - split; [intros _ H; by apply elem_of_nil in H | done].
  - rewrite not_elem_of_cons.
    destruct (String.eqb_spec k' k) as [->|Hne]; split; try done.
    + by intros [? _].
    + intros H. split; [congruence | by apply IH].
    + intros [_ H]. by apply IH.
Qed.

Lemma map_set_fresh l k v : map_get k l = None -> map_set k v l = (l ++ [(k, v)])%list.
Proof.
  induction l as [|[k' v'] l IH]; simpl; [done|].
  destruct (String.eqb k' k); [done|]. intros H. by rewrite IH.
Qed.

Lemma map_set_present_keys l k v :
  is_Some (map_get k l) -> (map_set k v l).*1 = l.*1.
Proof.
  induction l as [|[k' v'] l IH]; cbn [map_get map_set]; [by intros [? ?]|].
  destruct (String.eqb_spec k' k) as [->|Hne]; [done|].
  intros H. rewrite !fmap_cons. by rewrite IH.
Qed.

Lemma wf_map_set l k v : wf l -> wf (map_set k v l).
Proof.
  unfold wf. intros Hwf. destruct (map_get k l) as [v0|] eqn:Hk.
  - by rewrite map_set_present_keys by eauto.
  - rewrite map_set_fresh by done. rewrite fmap_app. simpl.
    apply NoDup_app. split; [done|]. split.
    + intros k' Hin [->|H]%elem_of_cons; [|by apply elem_of_nil in H].
      by apply map_get_None_keys in Hk.
    + apply NoDup_singleton.
Qed.

Lemma keys_map_delete l k k' : k' ∈ (map_delete k l).*1 -> k' ∈ l.*1.
Proof.
  induction l as [|[k0 v0] l IH]; simpl; [done|].
  destruct (String.eqb k0 k); simpl.
  - intros H. by apply elem_of_cons; right.
  - intros [->|H]%elem_of_cons; apply elem_of_cons; [by left | right; auto].
Qed.

Lemma wf_map_delete l k : wf l -> wf (map_delete k l).
Proof.
  unfold wf. induction l as [|[k0 v0] l IH]; simpl; [done|].
  intros [Hk0 Hnd]%NoDup_cons. destruct (String.eqb k0 k); [done|]. simpl.
  apply NoDup_cons. split; [|auto].
  intros H. apply Hk0. by apply keys_map_delete in H.
Qed.

Lemma contents_map_delete l k :
  wf l -> contents (map_delete k l) = delete k (contents l).
Proof.
  unfold wf, contents. induction l as [|[k0 v0] l IH]; simpl.
  - by rewrite delete_empty.
  - intros [Hk0 Hnd]%NoDup_cons.
    destruct (String.eqb_spec k0 k) as [->|Hne]; simpl.
    + rewrite delete_insert_eq. symmetry. apply delete_id.
      by apply not_elem_of_list_to_map.
    + rewrite IH by done. by rewrite delete_insert_ne.
Qed.

Lemma wf_deleteAll l (keys : list string) :
  wf l -> wf (foldl (fun m k => map_delete k m) l keys).
Proof.
  revert l. induction keys as [|k keys IH]; intros l Hwf; simpl; [done|].
  by apply IH, wf_map_delete.
Qed.

Lemma contents_deleteAll l (keys : list string) :
  wf l ->
  contents (foldl (fun m k => map_delete k m) l keys) = deleteAll keys (contents l).
Proof.
  unfold deleteAll. revert l.
  induction keys as [|k keys IH]; intros l Hwf; simpl; [done|].
  rewrite IH by (by apply wf_map_delete). by rewrite contents_map_delete.
Qed.

Lemma wf_storeUrl l e : wf l -> wf (storeUrl e l).
Proof. apply wf_map_set. Qed.

Lemma wf_recordClick l c ev : wf l -> wf (recordClick c ev l).
Proof.
  intros Hwf. unfold recordClick.
  destruct (map_get c l); [by apply wf_map_set | done].
Qed.

Lemma wf_cleanupExpiredUrls l now : wf l -> wf (fst (cleanupExpiredUrls now l)).
Proof. apply wf_deleteAll. Qed.

(** With each key once, a pair is in the list exactly when the contents
    map its key to its value. *)
Lemma elem_of_wf l k e : wf l -> (k, e) ∈ l <-> contents l !! k = Some e.
Proof. intros Hwf. by apply elem_of_list_to_map. Qed.

Lemma expired_keys_agree l now k :
  wf l ->
  k ∈ collectExpired now l <->
  k ∈ collectExpired now (map_to_list (contents l)).
Proof.
  intros Hwf. rewrite elem_of_collectExpired, elem_of_expired.
  split; intros (e & He & Hlt); exists e; split; auto; by apply elem_of_wf.
Qed.

Lemma contents_cleanup l now :
  wf l ->
  contents (fst (cleanupExpiredUrls now l))
  = fst (UrlService.cleanupExpiredUrls now (contents l)).
Proof.
  intros Hwf. unfold cleanupExpiredUrls, UrlService.cleanupExpiredUrls. simpl.
  rewrite contents_deleteAll by done.
  apply map_eq. intros k. rewrite !lookup_deleteAll.
  destruct (decide (k ∈ collectExpired now l)) as [Hin|Hnin];
    destruct (decide (k ∈ collectExpired now (map_to_list (contents l))))
      as [Hin'|Hnin']; try done.
  - exfalso. exact (Hnin' (proj1 (expired_keys_agree l now k Hwf) Hin)).
  - exfalso. exact (Hnin (proj2 (expired_keys_agree l now k Hwf) Hin')).
Qed.

Lemma count_cleanup l now :
  wf l ->
  snd (cleanupExpiredUrls now l)
  = snd (UrlService.cleanupExpiredUrls now (contents l)).
Proof.
  intros Hwf.
  pose proof (size_cleanup now (contents l)) as Hval.
  rewrite <- contents_cleanup in Hval by done.
  assert (size (contents l)
          = (size (contents (fst (cleanupExpiredUrls now l)))
             + snd (cleanupExpiredUrls now l))%nat) as Hord.
  { unfold cleanupExpiredUrls. simpl. rewrite contents_deleteAll by done.
    apply size_deleteAll.
    - by apply NoDup_collectExpired.
    - intros k (e & He & _)%elem_of_collectExpired.
      exists e. by apply elem_of_wf. }
  lia.
Qed.

End InOrderFacts.

Section GetAllUrlsFacts.

Import InOrder.

Implicit Types (l : omap) (k c : string) (v e : UrlEntry).


Lemma map_delete_filter l k :
  wf l ->
  map_delete k l = List.filter (fun kv => negb (String.eqb (fst kv) k)) l.
Proof.
  unfold wf. induction l as [|[k' v'] l IH]; cbn [map_delete List.filter fst]; [done|].
  rewrite fmap_cons. intros [Hk' Hnd]%NoDup_cons.
  destruct (String.eqb_spec k' k) as [->|Hne]; cbn [negb].
  - symmetry. apply forallb_filter_id. apply forallb_forall.
    intros [k0 v0] Hin. cbn [fst]. apply negb_true_iff, String.eqb_neq.
    intros ->. apply Hk'. apply list_elem_of_fmap. exists (k, v0).
    split; [done | by apply list_elem_of_In].
  - by rewrite IH.
Qed.

Lemma filter_filter {A} (p q : A -> bool) (xs : list A) :
  List.filter q (List.filter p xs) = List.filter (fun x => p x && q x) xs.
Proof.
  induction xs as [|x xs IH]; simpl; [done|].
  destruct (p x); simpl; [destruct (q x)|]; by rewrite IH.
Qed.

Lemma deleteAll_filter l (keys : list string) :
  wf l ->
  foldl (fun m k => map_delete k m) l keys
  = List.filter (fun kv => negb (existsb (String.eqb (fst kv)) keys)) l.
Proof.
  revert l. induction keys as [|k keys IH]; intros l Hwf; simpl.
  - symmetry. apply forallb_filter_id. by apply forallb_forall.
  - rewrite IH by (by apply wf_map_delete).
    rewrite map_delete_filter by done. rewrite filter_filter.
    apply filter_ext. intros [k' v']. cbn [fst]. by rewrite negb_orb.
Qed.

Lemma existsb_eqb_elem_of (keys : list string) k :
  existsb (String.eqb k) keys = true <-> k ∈ keys.
Proof.
  rewrite existsb_exists. split.
  - intros (k' & Hin & ->%String.eqb_eq). by apply list_elem_of_In.
  - intros Hin. exists k. split; [by apply list_elem_of_In | apply String.eqb_refl].
Qed.

Lemma map_snd_filter (p : UrlEntry -> bool) l :
  map snd (List.filter (fun kv => p (snd kv)) l) = List.filter p (map snd l).
Proof.
  induction l as [|[k v] l IH]; simpl; [done|].
  destruct (p v); simpl; by rewrite IH.
Qed.

End GetAllUrlsFacts.

(** X14: the operations of urlService.js do not depend on the iteration
    order of the [Map].  On the [Map] kept in insertion order, [getUrl]
    and [shortcodeExists] answer as on the order-free registry, and
    [storeUrl], [recordClick] and [cleanupExpiredUrls] (registry and
    count) give the same contents, each key staying there once. *)
Theorem in_order_agrees (l : InOrder.omap) :
  InOrder.wf l ->
  (forall c, InOrder.getUrl c l = getUrl c (InOrder.contents l))
  /\ (forall c, InOrder.shortcodeExists c l
                = shortcodeExists c (InOrder.contents l))
  /\ (forall e, InOrder.wf (InOrder.storeUrl e l)
        /\ InOrder.contents (InOrder.storeUrl e l)
           = storeUrl e (InOrder.contents l))
  /\ (forall c ev, InOrder.wf (InOrder.recordClick c ev l)
        /\ InOrder.contents (InOrder.recordClick c ev l)
           = recordClick c ev (InOrder.contents l))
  /\ (forall now, InOrder.wf (fst (InOrder.cleanupExpiredUrls now l))
        /\ InOrder.contents (fst (InOrder.cleanupExpiredUrls now l))
           = fst (cleanupExpiredUrls now (InOrder.contents l))
        /\ snd (InOrder.cleanupExpiredUrls now l)
           = snd (cleanupExpiredUrls now (InOrder.contents l))).
Proof.
  intros Hwf. split; [|split; [|split; [|split]]].
  - intros c. apply map_get_contents.
  - intros c. unfold InOrder.shortcodeExists, shortcodeExists, has.
    by rewrite map_get_contents.
  - intros e. split; [by apply wf_storeUrl | apply contents_map_set].
  - intros c ev. split; [by apply wf_recordClick|].
    unfold InOrder.recordClick, recordClick. rewrite map_get_contents.
    destruct (InOrder.contents l !! c); [apply contents_map_set | done].
  - intros now. split; [by apply wf_cleanupExpiredUrls|].
    split; [by apply contents_cleanup | by apply count_cleanup].
Qed.

Lemma in_order_agrees_witness :
  InOrder.wf [("wxyz", entry_c); ("abcd", entry_a)]
  /\ snd (InOrder.cleanupExpiredUrls 60001 [("wxyz", entry_c); ("abcd", entry_a)])
     = snd (cleanupExpiredUrls 60001
              (InOrder.contents [("wxyz", entry_c); ("abcd", entry_a)])).
Proof.
  assert (InOrder.wf [("wxyz", entry_c); ("abcd", entry_a)]) as Hwf.
  { unfold InOrder.wf. simpl. apply NoDup_cons. split.
    - intros [H|H]%elem_of_cons; [discriminate H | by apply elem_of_nil in H].
    - apply NoDup_singleton. }
  split; [exact Hwf|].
  apply (in_order_agrees _ Hwf).
Defined.



(** X16: after a sweep, [getAllUrls] is the list from before the sweep
    without the entries whose [expiresAt] was before the instant of the
    sweep, the others in their order. *)
Theorem getAllUrls_after_cleanup (now : Z) (l : InOrder.omap) :
  InOrder.wf l ->
  InOrder.getAllUrls (fst (InOrder.cleanupExpiredUrls now l))
  = List.filter (fun e => negb (date_lt (expiresAt e) (Some now)))
                (InOrder.getAllUrls l).
Proof.
  intros Hwf. unfold InOrder.getAllUrls, InOrder.cleanupExpiredUrls. simpl.
  rewrite deleteAll_filter by done.
  rewrite <- (map_snd_filter (fun e => negb (date_lt (expiresAt e) (Some now)))).
  f_equal. apply filter_ext_in. intros [k e] Hin. cbn [fst snd]. f_equal.
  apply list_elem_of_In in Hin.
  destruct (date_lt (expiresAt e) (Some now)) eqn:E.
  - apply existsb_eqb_elem_of. apply elem_of_collectExpired. eauto.
  - destruct (existsb _ _) eqn:Ex; [|done].
    apply existsb_eqb_elem_of, elem_of_collectExpired in Ex as (e' & Hin' & Hlt).
    assert (e' = e) as ->; [|congruence].
    apply (elem_of_wf l k e' Hwf) in Hin'. apply (elem_of_wf l k e Hwf) in Hin.
    congruence.
Qed.

Lemma getAllUrls_after_cleanup_witness :
  InOrder.wf [("wxyz", entry_c); ("abcd", entry_a)]
  /\ InOrder.getAllUrls
       (fst (InOrder.cleanupExpiredUrls 60001 [("wxyz", entry_c); ("abcd", entry_a)]))
     = [entry_c].
Proof.
  assert (InOrder.wf [("wxyz", entry_c); ("abcd", entry_a)]) as Hwf.
  { unfold InOrder.wf. simpl. apply NoDup_cons. split.
    - intros [H|H]%elem_of_cons; [discriminate H | by apply elem_of_nil in H].
    - apply NoDup_singleton. }
  split; [exact Hwf|].
  rewrite (getAllUrls_after_cleanup 60001 _ Hwf). reflexivity.
Defined.

(** X17: [getAllUrls] returns each stored entry once: the list is as long
    as the registry has entries, and an entry is in the list exactly when
    [getUrl] returns it for some code. *)
Theorem getAllUrls_complete (l : InOrder.omap) :
  InOrder.wf l ->
  length (InOrder.getAllUrls l) = size (InOrder.contents l)
  /\ (forall e, e ∈ InOrder.getAllUrls l <->
                exists c, InOrder.getUrl c l = Some e).
Proof.
  intros Hwf. unfold InOrder.getAllUrls, InOrder.getUrl. split.
  - rewrite length_map. unfold InOrder.contents.
    rewrite <- (length_map_to_list (list_to_map l)).
    apply Permutation_length. symmetry. by apply map_to_list_to_map.
  - intros e. split.
    + intros Hin. apply list_elem_of_In, in_map_iff in Hin as ([k e'] & Heq & Hin).
      simpl in Heq. subst e'. exists k. rewrite map_get_contents.
      apply (elem_of_wf l k e Hwf). by apply list_elem_of_In.
    + intros (c & Hc). rewrite map_get_contents in Hc.
      apply (elem_of_wf l c e Hwf) in Hc.
      apply list_elem_of_In, in_map_iff. exists (c, e).
      split; [done | by apply list_elem_of_In].
Qed.

Lemma getAllUrls_complete_witness :
  InOrder.wf [("wxyz", entry_c); ("abcd", entry_a)]
  /\ length (InOrder.getAllUrls [("wxyz", entry_c); ("abcd", entry_a)])
     = size (InOrder.contents [("wxyz", entry_c); ("abcd", entry_a)]).
Proof.
  assert (InOrder.wf [("wxyz", entry_c); ("abcd", entry_a)]) as Hwf.
  { unfold InOrder.wf. simpl. apply NoDup_cons. split.
    - intros [H|H]%elem_of_cons; [discriminate H | by apply elem_of_nil in H].
    - apply NoDup_singleton. }
  split; [exact Hwf|].
  apply (getAllUrls_complete _ Hwf).
Defined.

(* ===================================================================== *)
(** ** Entry objects by reference                                         *)
(* ===================================================================== *)

(** X18: with the [Map] holding references to entry objects, and as long
    as every key refers to an object carrying that key as its shortcode,
    each operation of urlService.js acts on the denoted registry as its
    value-level counterpart does, and keeps that condition.  In
    particular the in-place push of [recordClick] is seen under its own
    key only. *)
Theorem by_reference_agrees (s : ByReference.store) :
  ByReference.keyed s ->
  (forall c, getUrl c (ByReference.view s)
     = ByReference.getUrl c s ≫= (fun r => ByReference.objects s !! r))
  /\ (forall r e, ByReference.objects s !! r = Some e ->
        ByReference.keyed (ByReference.storeUrl r s)
        /\ ByReference.view (ByReference.storeUrl r s)
           = storeUrl e (ByReference.view s))
  /\ (forall c ev,
        ByReference.keyed (ByReference.recordClick c ev s)
        /\ ByReference.view (ByReference.recordClick c ev s)
           = recordClick c ev (ByReference.view s))
  /\ (forall now,
        ByReference.keyed (fst (ByReference.cleanupExpiredUrls now s))
        /\ ByReference.view (fst (ByReference.cleanupExpiredUrls now s))
           = fst (cleanupExpiredUrls now (ByReference.view s))
        /\ snd (ByReference.cleanupExpiredUrls now s)
           = snd (cleanupExpiredUrls now (ByReference.view s))).
Proof.
  intros Hk. split; [|split; [|split]].
  - intros c. apply view_getUrl.
  - intros r e Hr. split; [by apply (keyed_ref_storeUrl s r e) | by apply view_storeUrl].
  - intros c ev. split; [by apply keyed_ref_recordClick | by apply view_recordClick].
  - intros now. split; [by apply keyed_ref_cleanupExpiredUrls|].
    split; [apply view_cleanupExpiredUrls | by apply count_cleanupExpiredUrls].
Qed.

(** X19: the entry object handed out by [getUrl] is the stored object
    itself.  After [recordClick] on the code, [getUrl] returns the same
    reference as before, the object behind it has the click appended,
    and no other object has changed. *)
Theorem recordClick_mutates_in_place (s : ByReference.store) (c : string)
    (ev : ClickEvent) (r : ByReference.ref) (e : UrlEntry) :
  ByReference.getUrl c s = Some r ->
  ByReference.objects s !! r = Some e ->
  ByReference.getUrl c (ByReference.recordClick c ev s) = Some r
  /\ ByReference.objects (ByReference.recordClick c ev s) !! r
     = Some (push_click ev e)
  /\ (forall r', r' <> r ->
        ByReference.objects (ByReference.recordClick c ev s) !! r'
        = ByReference.objects s !! r').
Proof.
  unfold ByReference.getUrl, ByReference.recordClick. intros -> He. simpl.
  split; [apply lookup_insert_eq|]. split.
  - by rewrite lookup_alter_eq, He.
  - intros r' Hne. by apply lookup_alter_ne.
Qed.

Lemma by_reference_agrees_witness :
  ByReference.keyed store_a
  /\ ByReference.view (ByReference.recordClick "abcd" click_1 store_a)
     = recordClick "abcd" click_1 (ByReference.view store_a).
Proof.
  assert (ByReference.keyed store_a) as Hk.
  { intros k r. unfold store_a. simpl.
    intros [<- <-]%lookup_singleton_Some. exists entry_a.
    split; [apply lookup_singleton_eq | reflexivity]. }
  split; [exact Hk|].
  apply (by_reference_agrees store_a Hk).
Defined.

Lemma recordClick_mutates_in_place_witness :
  ByReference.getUrl "abcd" store_a = Some 1%positive
  /\ ByReference.objects store_a !! 1%positive = Some entry_a
  /\ ByReference.objects (ByReference.recordClick "abcd" click_1 store_a)
       !! 1%positive
     = Some (push_click click_1 entry_a).
Proof.
  split; [reflexivity|]. split; [reflexivity|].
  apply (recordClick_mutates_in_place store_a "abcd" click_1 1%positive entry_a);
    reflexivity.
Defined.

(* ===================================================================== *)
(** ** Frontend: search history and form rows                             *)
(* ===================================================================== *)

Section ListFacts.

Context {A B : Type}.

Lemma sublist_List_filter (p : A -> bool) (l : list A) :
  List.filter p l `sublist_of` l.
Proof.
  induction l as [|x l IH]; simpl; [constructor|].
  destruct (p x); by constructor.
Qed.

Lemma sublist_map (f : A -> B) (l1 l2 : list A) :
  l1 `sublist_of` l2 -> map f l1 `sublist_of` map f l2.
Proof. induction 1; simpl; by constructor. Qed.

End ListFacts.

(** X20: the search history after a successful fetch starts with the item
    just fetched, is at most 10 items long, and lists the fetched
    shortcode once; the items after the first are items of the old
    history with another shortcode, in their old order.  A history
    without repeated shortcodes stays so. *)
Theorem updatedHistory_bounded (shortcode0 timestamp0 : string) (totalClicks0 : Z)
    (searchHistory : list StatisticsPage.HistoryItem) :
  let h := StatisticsPage.updatedHistory shortcode0 timestamp0 totalClicks0
             searchHistory in
  (length h <= 10)%nat
  /\ head h = Some (StatisticsPage.mkHistoryItem (trim shortcode0) timestamp0
                      totalClicks0)
  /\ tail h `sublist_of` searchHistory
  /\ (forall item, item ∈ tail h ->
        StatisticsPage.shortcode item <> trim shortcode0)
  /\ (NoDup (map StatisticsPage.shortcode searchHistory) ->
      NoDup (map StatisticsPage.shortcode h)).
Proof.
  unfold StatisticsPage.updatedHistory. cbv zeta.
  set (new := StatisticsPage.mkHistoryItem _ _ _).
  set (rest := List.filter _ searchHistory).
  change (take 10 (new :: rest)) with (new :: take 9 rest). cbn [head tail].
  assert (take 9 rest `sublist_of` searchHistory) as Hsub.
  { etrans; [apply sublist_take | apply sublist_List_filter]. }
  assert (forall item, item ∈ take 9 rest ->
            StatisticsPage.shortcode item <> trim shortcode0) as Hother.
  { intros item Hin.
    assert (item ∈ rest) as Hin' by (eapply elem_of_sublist; [done | apply sublist_take]).
    apply list_elem_of_In, filter_In in Hin' as [_ Hne].
    by apply negb_true_iff, String.eqb_neq in Hne. }
  split; [|split; [|split; [|split]]]; try done.
  - cbn [length]. rewrite length_take. lia.
  - intros Hnd. cbn [map]. apply NoDup_cons. split.
    + intros Hin. apply list_elem_of_In, in_map_iff in Hin as (item & Heq & Hin).
      apply list_elem_of_In in Hin. by apply (Hother item Hin).
    + exact (sublist_NoDup _ _ Hnd (sublist_map StatisticsPage.shortcode _ _ Hsub)).
Qed.

Lemma updatedHistory_bounded_witness :
  NoDup (map StatisticsPage.shortcode
           [StatisticsPage.mkHistoryItem "abcd" "2025-07-11T12:00:00.000Z" 2])
  /\ NoDup (map StatisticsPage.shortcode
              (StatisticsPage.updatedHistory " abcd " "2025-07-11T12:05:00.000Z" 3
                 [StatisticsPage.mkHistoryItem "abcd" "2025-07-11T12:00:00.000Z" 2])).
Proof.
  assert (NoDup (map StatisticsPage.shortcode
           [StatisticsPage.mkHistoryItem "abcd" "2025-07-11T12:00:00.000Z" 2])) as H
    by (simpl; apply NoDup_singleton).
  split; [exact H|].
  exact (proj2 (proj2 (proj2 (proj2
    (updatedHistory_bounded " abcd " "2025-07-11T12:05:00.000Z" 3
       [StatisticsPage.mkHistoryItem "abcd" "2025-07-11T12:00:00.000Z" 2])))) H).
Defined.

Section FormFacts.

Import UrlShortenerPage.

Context {R : Type}.

Implicit Types (st : FormState R) (rows : list UrlFormEntry).

Lemma filter_index_below {A} (index k : nat) (l : list A) :
  (index < k)%nat ->
  filter_index (fun i => negb (i =? index)%nat) k l = l.
Proof.
  revert k. induction l as [|x l IH]; intros k Hlt; simpl; [done|].
  replace (k =? index)%nat with false by (symmetry; apply Nat.eqb_neq; lia).
  simpl. rewrite IH by lia. done.
Qed.

Lemma filter_index_delete {A} (j k : nat) (l : list A) :
  filter_index (fun i => negb (i =? k + j)%nat) k l = delete j l.
Proof.
  revert j k. induction l as [|x l IH]; intros j k; simpl; [done|].
  destruct j as [|j].
  - rewrite Nat.add_0_r, Nat.eqb_refl. simpl. apply filter_index_below. lia.
  - replace (k =? k + S j)%nat with false by (symmetry; apply Nat.eqb_neq; lia).
    simpl. f_equal. rewrite <- (IH j (S k)). f_equal.
    replace (k + S j)%nat with (S k + j)%nat by lia. done.
Qed.

Lemma removeUrlEntry_rows index st :
  (1 < length (urlEntries st))%nat ->
  urlEntries (removeUrlEntry index st) = delete index (urlEntries st)
  /\ errors (removeUrlEntry index st) = delete index (errors st).
Proof.
  intros Hlen. unfold removeUrlEntry.
  replace (1 <? length (urlEntries st))%nat with true
    by (symmetry; apply Nat.ltb_lt; lia).
  simpl. split; [|done]. apply (filter_index_delete index 0).
Qed.

Lemma length_delete_le {A} (i : nat) (l : list A) :
  (length l - 1 <= length (delete i l) <= length l)%nat.
Proof.
  revert i. induction l as [|x l IH]; intros i; simpl; [lia|].
  destruct i as [|i]; simpl; [lia|]. specialize (IH i). lia.
Qed.

Lemma rows_updateUrlEntry index f value st st' :
  updateUrlEntry index f value st = Some st' ->
  urlEntries st' = <[index := set_field f value
                                (default blank (urlEntries st !! index))]>
                     (urlEntries st).
Proof.
  unfold updateUrlEntry. destruct (urlEntries st !! index) as [row|]; [|done].
  by intros [= <-].
Qed.

Lemma rows_act (a : action) st :
  (1 <= length (urlEntries st) <= 5)%nat ->
  (1 <= length (urlEntries (act st a)) <= 5)%nat.
Proof.
  intros Hlen. destruct a as [|index|index f value|index value|]; simpl.
  - unfold addUrlEntry. destruct (Nat.ltb_spec (length (urlEntries st)) 5); [|done].
    simpl. rewrite length_app. simpl. lia.
  - unfold removeUrlEntry.
    destruct (Nat.ltb_spec 1 (length (urlEntries st))) as [Hgt|]; [|done].
    simpl. rewrite (filter_index_delete index 0).
    pose proof (length_delete_le index (urlEntries st)). lia.
  - destruct (updateUrlEntry index f value st) as [st'|] eqn:E; [|done].
    simpl. rewrite (rows_updateUrlEntry _ _ _ _ _ E), length_insert. done.
  - unfold handleUrlBlur. destruct (String.eqb _ _); [done|].
    destruct (updateUrlEntry index Url (trim value) st) as [st'|] eqn:E; [|done].
    simpl. rewrite (rows_updateUrlEntry _ _ _ _ _ E), length_insert. done.
  - lia.
Qed.

End FormFacts.

(** X21: the form always shows between one and five rows.  From a state
    with 1 to 5 rows, every run of the handlers (add, remove, edit, blur,
    clear) ends in a state with 1 to 5 rows; the initial state has one
    row. *)
Theorem form_rows_1_to_5 {R} (l : list UrlShortenerPage.action)
    (st : UrlShortenerPage.FormState R) :
  (1 <= length (UrlShortenerPage.urlEntries st) <= 5)%nat ->
  (1 <= length (UrlShortenerPage.urlEntries (UrlShortenerPage.acts l st)) <= 5)%nat.
Proof.
  unfold UrlShortenerPage.acts. revert st.
  induction l as [|a l IH]; intros st Hlen; simpl; [done|].
  by apply IH, rows_act.
Qed.

Lemma form_rows_1_to_5_witness :
  (1 <= length (UrlShortenerPage.urlEntries
                  (UrlShortenerPage.initial (R := unit))) <= 5)%nat
  /\ (1 <= length (UrlShortenerPage.urlEntries
        (UrlShortenerPage.acts
           [UrlShortenerPage.Add; UrlShortenerPage.Add; UrlShortenerPage.Add;
            UrlShortenerPage.Add; UrlShortenerPage.Add; UrlShortenerPage.Remove 0;
            UrlShortenerPage.Clear; UrlShortenerPage.Remove 0]
           (UrlShortenerPage.initial (R := unit)))) <= 5)%nat.
Proof.
  assert (1 <= length (UrlShortenerPage.urlEntries
                  (UrlShortenerPage.initial (R := unit))) <= 5)%nat as H
    by (simpl; lia).
  split; [exact H|].
  exact (form_rows_1_to_5 _ _ H).
Defined.

(** X22: removing a row.  With a single row, [removeUrlEntry] does
    nothing.  With more rows, it takes out the row at the index (none when
    the index is past the end): the rows before it stay, the rows after it
    move up by one.  Of the recorded validation errors only those filed
    under the index are dropped; the errors of the other rows stay under
    their old index and do not move up with the rows. *)
Theorem removeUrlEntry_shifts_rows_not_errors {R} (index : nat)
    (st : UrlShortenerPage.FormState R) :
  ((length (UrlShortenerPage.urlEntries st) <= 1)%nat ->
     UrlShortenerPage.removeUrlEntry index st = st)
  /\ ((1 < length (UrlShortenerPage.urlEntries st))%nat ->
      let st' := UrlShortenerPage.removeUrlEntry index st in
      (forall j, (j < index)%nat ->
         UrlShortenerPage.urlEntries st' !! j = UrlShortenerPage.urlEntries st !! j)
      /\ (forall j, (index <= j)%nat ->
         UrlShortenerPage.urlEntries st' !! j
         = UrlShortenerPage.urlEntries st !! S j)
      /\ UrlShortenerPage.errors st' !! index = None
      /\ (forall j, j <> index ->
         UrlShortenerPage.errors st' !! j = UrlShortenerPage.errors st !! j)).
Proof.
  split.
  - intros Hlen. unfold UrlShortenerPage.removeUrlEntry.
    by replace (1 <? _)%nat with false by (symmetry; apply Nat.ltb_ge; lia).
  - intros Hlen. cbv zeta.
    destruct (removeUrlEntry_rows index st Hlen) as [-> ->].
    split; [|split; [|split]].
    + intros j Hj. by apply list_lookup_delete_lt.
    + intros j Hj. by apply list_lookup_delete_ge.
    + apply lookup_delete_eq.
    + intros j Hj. by apply lookup_delete_ne.
Qed.

Lemma removeUrlEntry_shifts_rows_not_errors_witness :
  (1 < length [UrlShortenerPage.mkRow "a" "" ""; UrlShortenerPage.mkRow "b" "" ""])%nat
  /\ UrlShortenerPage.urlEntries
       (UrlShortenerPage.removeUrlEntry 0
          (UrlShortenerPage.mkForm (R := unit)
             [UrlShortenerPage.mkRow "a" "" ""; UrlShortenerPage.mkRow "b" "" ""]
             [] {[ 1%nat := {[ "url" := "URL is required" ]} ]})) !! 0%nat
     = Some (UrlShortenerPage.mkRow "b" "" "")
  /\ UrlShortenerPage.errors
       (UrlShortenerPage.removeUrlEntry 0
          (UrlShortenerPage.mkForm (R := unit)
             [UrlShortenerPage.mkRow "a" "" ""; UrlShortenerPage.mkRow "b" "" ""]
             [] {[ 1%nat := {[ "url" := "URL is required" ]} ]})) !! 1%nat
     = Some {[ "url" := "URL is required" ]}.
Proof.
  assert (1 < length [UrlShortenerPage.mkRow "a" "" "";
                      UrlShortenerPage.mkRow "b" "" ""])%nat as H by (simpl; lia).
  split; [exact H|].
  pose proof (proj2 (removeUrlEntry_shifts_rows_not_errors 0
    (UrlShortenerPage.mkForm (R := unit)
       [UrlShortenerPage.mkRow "a" "" ""; UrlShortenerPage.mkRow "b" "" ""]
       [] {[ 1%nat := {[ "url" := "URL is required" ]} ]})) H)
    as (_ & Hup & _ & Herr).
  split.
  - rewrite (Hup 0%nat); [reflexivity | lia].
  - rewrite (Herr 1%nat); [reflexivity | lia].
Defined.

(** X23: on leaving the URL field of a row, the URL kept for that row is
    the trimmed text: when the handler is called with the row's current
    URL it succeeds, the row then holds the trimmed URL with its other
    fields as they were, and no other row changes. *)
Theorem handleUrlBlur_trims_row {R} (index : nat) (value : string)
    (st : UrlShortenerPage.FormState R) (row : UrlShortenerPage.UrlFormEntry) :
  UrlShortenerPage.urlEntries st !! index = Some row ->
  UrlShortenerPage.url row = value ->
  exists st', UrlShortenerPage.handleUrlBlur index value st = Some st'
    /\ UrlShortenerPage.urlEntries st' !! index
       = Some (UrlShortenerPage.mkRow (trim value)
                 (UrlShortenerPage.validity row) (UrlShortenerPage.shortcode row))
    /\ (forall j, j <> index ->
          UrlShortenerPage.urlEntries st' !! j
          = UrlShortenerPage.urlEntries st !! j).
Proof.
  intros Hrow Hurl. unfold UrlShortenerPage.handleUrlBlur. cbv zeta.
  destruct (String.eqb_spec (trim value) value) as [Heq|Hne].
  - exists st. split; [done|]. split; [|done].
    rewrite Hrow, Heq. destruct row. simpl in *. by subst.
  - unfold UrlShortenerPage.updateUrlEntry. rewrite Hrow. cbv zeta.
    eexists. split; [done|]. simpl. split.
    + apply list_lookup_insert_eq. by apply lookup_lt_Some in Hrow.
    + intros j Hj. by apply list_lookup_insert_ne.
Qed.

Lemma handleUrlBlur_trims_row_witness :
  exists st', UrlShortenerPage.handleUrlBlur 0 " https://example.com "
                (UrlShortenerPage.mkForm (R := unit)
                   [UrlShortenerPage.mkRow " https://example.com " "30" ""] [] ∅)
              = Some st'
    /\ UrlShortenerPage.urlEntries st' !! 0%nat
       = Some (UrlShortenerPage.mkRow "https://example.com" "30" "").
Proof.
  destruct (handleUrlBlur_trims_row 0 " https://example.com "
              (UrlShortenerPage.mkForm (R := unit)
                 [UrlShortenerPage.mkRow " https://example.com " "30" ""] [] ∅)
              (UrlShortenerPage.mkRow " https://example.com " "30" "")
              eq_refl eq_refl) as (st' & H1 & H2 & _).
  exists st'. split; [exact H1 | exact H2].
Defined.

(* ===================================================================== *)
(** ** Frontend: the tallies of the statistics page                       *)
(* ===================================================================== *)

Section TallyFacts.

Import StatisticsPage.

Implicit Types (counts l : list (string * nat)) (keys : list string)
  (k key : string).

Local Abbreviation to_map counts := (list_to_map counts : gmap string nat).

Lemma occurrences_cons k key keys :
  occurrences k (key :: keys)
  = ((if String.eqb k key then 1 else 0) + occurrences k keys)%nat.
Proof. unfold occurrences. simpl. by destruct (String.eqb k key). Qed.

Lemma occurrences_pos k keys : (0 < occurrences k keys)%nat <-> k ∈ keys.
Proof.
  induction keys as [|key keys IH].
  - split; [unfold occurrences; simpl; lia | intros H; by apply elem_of_nil in H].
  - rewrite occurrences_cons, elem_of_cons.
    destruct (String.eqb_spec k key) as [->|Hne].
    + split; [by left | lia].
    + simpl. rewrite IH. split; [by right | by intros [?|?]].
Qed.

(** The counter object as a finite map. *)
Lemma bump_to_map key counts :
  to_map (bump key counts)
  = <[key := S (default 0%nat (to_map counts !! key))]> (to_map counts).
Proof.
  induction counts as [|[k n] counts IH]; simpl; [done|].
  destruct (String.eqb_spec k key) as [->|Hne]; simpl.
  - rewrite lookup_insert_eq. simpl. by rewrite insert_insert_eq.
  - rewrite IH, lookup_insert_ne by done. by apply insert_insert_ne.
Qed.

Lemma bump_keys key counts :
  (bump key counts).*1
  = if decide (key ∈ counts.*1) then counts.*1 else (counts.*1 ++ [key])%list.
Proof.
  induction counts as [|[k n] counts IH]; cbn [bump].
  - by rewrite decide_False by (intros H; by apply elem_of_nil in H).
  - destruct (String.eqb_spec k key) as [->|Hne].
    + rewrite !fmap_cons. cbn [fst].
      by rewrite decide_True by (by apply elem_of_cons; left).
    + rewrite !fmap_cons. cbn [fst]. rewrite IH.
      destruct (decide (key ∈ counts.*1)) as [Hin|Hnin].
      * by rewrite decide_True by (by apply elem_of_cons; right).
      * rewrite decide_False; [done|].
        intros [?|?]%elem_of_cons; [congruence | done].
Qed.

Lemma bump_NoDup key counts : NoDup (counts.*1) -> NoDup ((bump key counts).*1).
Proof.
  intros Hnd. rewrite bump_keys. destruct (decide (key ∈ counts.*1)); [done|].
  apply NoDup_app. split; [done|]. split; [|apply NoDup_singleton].
  intros k Hin [->|H]%elem_of_cons; [done | by apply elem_of_nil in H].
Qed.

Lemma bump_sum key counts :
  sum_list_with snd (bump key counts) = S (sum_list_with snd counts).
Proof.
  induction counts as [|[k n] counts IH]; simpl; [done|].
  destruct (String.eqb k key); simpl; [done | rewrite IH; lia].
Qed.

Lemma foldl_bump_NoDup keys counts :
  NoDup (counts.*1) ->
  NoDup ((foldl (fun counts key => bump key counts) counts keys).*1).
Proof.
  revert counts. induction keys as [|key keys IH]; intros counts Hnd; simpl; [done|].
  by apply IH, bump_NoDup.
Qed.

Lemma foldl_bump_sum keys counts :
  sum_list_with snd (foldl (fun counts key => bump key counts) counts keys)
  = (sum_list_with snd counts + length keys)%nat.
Proof.
  revert counts. induction keys as [|key keys IH]; intros counts; simpl; [lia|].
  rewrite IH, bump_sum. lia.
Qed.

Lemma foldl_bump_lookup keys counts k :
  to_map (foldl (fun counts key => bump key counts) counts keys) !! k
  = if decide (occurrences k keys = 0%nat) then to_map counts !! k
    else Some (default 0%nat (to_map counts !! k) + occurrences k keys)%nat.
Proof.
  revert counts. induction keys as [|key keys IH]; intros counts; cbn [foldl].
  - destruct (decide _) as [|Hn]; [done | by exfalso; apply Hn].
  - rewrite IH, bump_to_map, occurrences_cons.
    destruct (String.eqb_spec k key) as [->|Hne].
    + rewrite lookup_insert_eq. cbn [default]. unfold id.
      destruct (decide (occurrences key keys = 0%nat)) as [Hz|Hpos];
        destruct (decide ((1 + occurrences key keys)%nat = 0%nat)) as [Hz'|Hpos'];
        try lia; f_equal; lia.
    + rewrite lookup_insert_ne by done. done.
Qed.

Lemma tally_NoDup keys : NoDup ((tally keys).*1).
Proof. apply foldl_bump_NoDup. constructor. Qed.

Lemma tally_sum keys : sum_list_with snd (tally keys) = length keys.
Proof. unfold tally. by rewrite foldl_bump_sum. Qed.

Lemma tally_elem_of keys k n :
  (k, n) ∈ tally keys <-> n = occurrences k keys /\ (0 < n)%nat.
Proof.
  rewrite (elem_of_list_to_map (M := gmap string) (tally keys) k n (tally_NoDup keys)).
  unfold tally. rewrite foldl_bump_lookup. simpl.
  destruct (decide (occurrences k keys = 0%nat)) as [Hz|Hpos].
  - rewrite lookup_empty. split; [done | lia].
  - rewrite lookup_empty. simpl. split; [intros [= <-]; lia | intros [-> _]; done].
Qed.

(** Listing the entries and sorting them rearranges, nothing more. *)
Lemma insert_by_index_perm x l : insert_by_index x l ≡ₚ x :: l.
Proof.
  induction l as [|y l IH]; simpl; [done|].
  destruct (_ <=? _)%N; [done|]. rewrite IH. apply Permutation_swap.
Qed.

Lemma insert_by_count_perm x l : insert_by_count x l ≡ₚ x :: l.
Proof.
  induction l as [|y l IH]; simpl; [done|].
  destruct (_ <=? _)%nat; [done|]. rewrite IH. apply Permutation_swap.
Qed.

Lemma sort_by_count_perm l : sort_by_count l ≡ₚ l.
Proof.
  unfold sort_by_count. induction l as [|x l IH]; simpl; [done|].
  by rewrite insert_by_count_perm, IH.
Qed.

Lemma filter_split_perm {A} (p : A -> bool) (xs : list A) :
  (List.filter p xs ++ List.filter (fun x => negb (p x)) xs)%list ≡ₚ xs.
Proof.
  induction xs as [|x xs IH]; simpl; [done|].
  destruct (p x); simpl.
  - by rewrite IH.
  - rewrite <- Permutation_middle. by rewrite IH.
Qed.

Lemma Object_entries_perm counts : Object_entries counts ≡ₚ counts.
Proof.
  unfold Object_entries.
  etrans; [|apply (filter_split_perm (fun kv => is_array_index (fst kv)))].
  apply Permutation_app; [|done].
  induction (List.filter _ counts) as [|x l IH]; simpl; [done|].
  by rewrite insert_by_index_perm, IH.
Qed.

Global Instance by_count_desc_trans : Transitive by_count_desc.
Proof. unfold by_count_desc. intros x y z ? ?. lia. Qed.

Lemma insert_by_count_sorted x l :
  StronglySorted by_count_desc l ->
  StronglySorted by_count_desc (insert_by_count x l).
Proof.
  induction l as [|y l IH]; simpl; intros Hs.
  - repeat constructor.
  - destruct (Nat.leb_spec (snd y) (snd x)) as [Hle|Hgt].
    + constructor; [done|]. apply StronglySorted_inv in Hs as [Hs Hall].
      constructor; [done|]. eapply Forall_impl; [exact Hall|].
      unfold by_count_desc. simpl. intros z ?. lia.
    + apply StronglySorted_inv in Hs as [Hs Hall]. constructor; [auto|].
      rewrite insert_by_count_perm. constructor; [|done].
      unfold by_count_desc. lia.
Qed.

Lemma sort_by_count_sorted l : StronglySorted by_count_desc (sort_by_count l).
Proof.
  unfold sort_by_count. induction l as [|x l IH]; simpl; [constructor|].
  by apply insert_by_count_sorted.
Qed.

Lemma ranking_Some keys :
  Forall (fun k => k ∉ inherited_names) keys ->
  ranking keys = Some (sort_by_count (Object_entries (tally keys))).
Proof.
  intros Hok. unfold ranking.
  destruct (existsb _ keys) eqn:E; [|done]. exfalso.
  apply existsb_exists in E as (k & Hin & Hinc).
  apply includes_In in Hinc. rewrite Forall_forall in Hok.
  apply (Hok k); by apply list_elem_of_In.
Qed.

Lemma ranked_perm keys :
  sort_by_count (Object_entries (tally keys)) ≡ₚ tally keys.
Proof. by rewrite sort_by_count_perm, Object_entries_perm. Qed.

End TallyFacts.

(** X24: [getLocationDistribution] lists every place once, with the number
    of clicks from it, the most clicked first.  Provided no place is the
    name of a property an empty object inherits: each location (a click
    without one counting as "Unknown") that occurs among the clicks is
    listed exactly once, with exactly its number of occurrences; nothing
    else is listed; the counts are in descending order and add up to the
    number of clicks. *)
Theorem getLocationDistribution_counts (clicks : list ClickEvent) :
  Forall (fun click => StatisticsPage.location_key click
                       ∉ StatisticsPage.inherited_names) clicks ->
  exists result,
    StatisticsPage.getLocationDistribution clicks = Some result
    /\ NoDup (result.*1)
    /\ (forall l n, (l, n) ∈ result <->
          n = StatisticsPage.occurrences l
                (map StatisticsPage.location_key clicks) /\ (0 < n)%nat)
    /\ StronglySorted StatisticsPage.by_count_desc result
    /\ sum_list_with snd result = length clicks.
Proof.
  intros Hok. eexists. split.
  - unfold StatisticsPage.getLocationDistribution. apply ranking_Some.
    apply Forall_forall. intros k Hin.
    apply list_elem_of_In, in_map_iff in Hin as (click & <- & Hin).
    rewrite Forall_forall in Hok. apply Hok. by apply list_elem_of_In.
  - split; [|split; [|split]].
    + rewrite ranked_perm. apply tally_NoDup.
    + intros l n. rewrite ranked_perm. apply tally_elem_of.
    + apply sort_by_count_sorted.
    + rewrite ranked_perm, tally_sum. apply length_map.
Qed.

Lemma getLocationDistribution_counts_witness :
  exists result,
    StatisticsPage.getLocationDistribution
      [mkClick "t1" "Direct" "Pune, IN" "ua"; mkClick "t2" "Direct" "" "ua";
       mkClick "t3" "Direct" "Pune, IN" "ua"] = Some result
    /\ result = [("Pune, IN", 2%nat); ("Unknown", 1%nat)].
Proof.
  assert (Forall (fun click => StatisticsPage.location_key click
                               ∉ StatisticsPage.inherited_names)
            [mkClick "t1" "Direct" "Pune, IN" "ua"; mkClick "t2" "Direct" "" "ua";
             mkClick "t3" "Direct" "Pune, IN" "ua"]) as Hok.
  { repeat constructor; intros Hin; apply list_elem_of_In in Hin; simpl in Hin;
      repeat (destruct Hin as [Hin|Hin]; [discriminate Hin|]); exact Hin. }
  destruct (getLocationDistribution_counts _ Hok) as (result & Hres & _).
  exists result. split; [exact Hres|].
  vm_compute in Hres. congruence.
Defined.

(** X25: [getTopReferrers] returns the five most frequent referrers.
    Provided no referrer key is the name of a property an empty object
    inherits: at most 5 referrers are listed, each once and with exactly
    its number of clicks, in descending order of count; a referrer that
    is not listed has no more clicks than any listed one; and with fewer
    than 5 listed, every referrer that occurs is listed. *)
Theorem getTopReferrers_top5 (extractDomain : string -> string)
    (clicks : list ClickEvent) :
  let keys := map (StatisticsPage.referrer_key extractDomain) clicks in
  Forall (fun k => k ∉ StatisticsPage.inherited_names) keys ->
  exists result,
    StatisticsPage.getTopReferrers extractDomain clicks = Some result
    /\ (length result <= 5)%nat
    /\ NoDup (result.*1)
    /\ (forall r n, (r, n) ∈ result ->
          n = StatisticsPage.occurrences r keys /\ (0 < n)%nat)
    /\ StronglySorted StatisticsPage.by_count_desc result
    /\ (forall r, r ∉ result.*1 -> forall r' n', (r', n') ∈ result ->
          (StatisticsPage.occurrences r keys <= n')%nat)
    /\ (forall r, r ∈ keys -> r ∈ result.*1 \/ length result = 5%nat).
Proof.
  intros keys Hok.
  set (full := StatisticsPage.sort_by_count
                 (StatisticsPage.Object_entries (StatisticsPage.tally keys))).
  assert (full ≡ₚ StatisticsPage.tally keys) as Hperm by apply ranked_perm.
  assert (StronglySorted StatisticsPage.by_count_desc (take 5 full ++ drop 5 full))
    as Hsorted by (rewrite take_drop; apply sort_by_count_sorted).
  assert (forall r n, (r, n) ∈ full <->
            n = StatisticsPage.occurrences r keys /\ (0 < n)%nat) as Hfull
    by (intros r n; rewrite Hperm; apply tally_elem_of).
  assert (forall r, r ∈ keys -> r ∉ (take 5 full).*1 ->
            (r, StatisticsPage.occurrences r keys) ∈ drop 5 full) as Hdropped.
  { intros r Hin Hnot.
    assert ((r, StatisticsPage.occurrences r keys) ∈ full) as Hmem
      by (apply Hfull; split; [done | by apply occurrences_pos]).
    rewrite <- (take_drop 5 full) in Hmem.
    apply elem_of_app in Hmem as [Hmem|Hmem]; [|done].
    exfalso. apply Hnot. apply list_elem_of_fmap. by eexists (_, _). }
  exists (take 5 full). split; [|split; [|split; [|split; [|split; [|split]]]]].
  - unfold StatisticsPage.getTopReferrers. fold keys.
    by rewrite (ranking_Some keys Hok).
  - rewrite length_take. lia.
  - apply (sublist_NoDup _ (full.*1)).
    + rewrite Hperm. apply tally_NoDup.
    + rewrite fmap_take. apply sublist_take.
  - intros r n Hin. apply Hfull. eapply elem_of_sublist; [done | apply sublist_take].
  - by apply StronglySorted_app_1_l in Hsorted.
  - intros r Hnot r' n' Hin'.
    destruct (decide (r ∈ keys)) as [Hin|Hnin].
    + apply (StronglySorted_app_1_elem_of _ _ _ _ _ Hsorted Hin' (Hdropped r Hin Hnot)).
    + assert (StatisticsPage.occurrences r keys = 0%nat) as ->; [|lia].
      destruct (StatisticsPage.occurrences r keys) eqn:E; [done|].
      exfalso. apply Hnin. apply occurrences_pos. lia.
  - intros r Hin. destruct (decide (r ∈ (take 5 full).*1)) as [|Hnot]; [by left|].
    right. pose proof (Hdropped r Hin Hnot) as Hmem.
    rewrite length_take. destruct (decide (length full <= 5)%nat) as [Hle|]; [|lia].
    rewrite drop_ge in Hmem by done. by apply elem_of_nil in Hmem.
Qed.

Lemma getTopReferrers_top5_witness :
  exists result,
    StatisticsPage.getTopReferrers (fun r => r)
      [mkClick "t1" "Direct" "Pune, IN" "ua"; mkClick "t2" "google.com" "" "ua";
       mkClick "t3" "google.com" "Pune, IN" "ua"] = Some result
    /\ result = [("google.com", 2%nat); ("Direct Access", 1%nat)].
Proof.
  assert (Forall (fun k => k ∉ StatisticsPage.inherited_names)
            (map (StatisticsPage.referrer_key (fun r => r))
               [mkClick "t1" "Direct" "Pune, IN" "ua";
                mkClick "t2" "google.com" "" "ua";
                mkClick "t3" "google.com" "Pune, IN" "ua"])) as Hok.
  { repeat constructor; intros Hin; apply list_elem_of_In in Hin; simpl in Hin;
      repeat (destruct Hin as [Hin|Hin]; [discriminate Hin|]); exact Hin. }
  destruct (getTopReferrers_top5 (fun r => r) _ Hok) as (result & Hres & _).
  exists result. split; [exact Hres|].
  vm_compute in Hres. congruence.
Defined.
